(** * Verification of the marketing-defect scripts

    A shallow embedding of [osv_scrape.js] (stage 2: vulnerability lookup) and
    of the catalog scrape (stage 1: fork-point discovery), with the properties
    of the design document stated over it.

    Layout: JavaScript primitives the scripts rely on ([JS]), the catalog
    scrape ([Catalog]), the OSV scrape ([Osv]), the design document's
    wording of some properties ([Design]), then the lemmas. *)

From Stdlib Require Import ZArith QArith Lqa String Ascii Permutation.
From stdpp Require Import gmap strings list fin_maps.

Local Open Scope string_scope.
Local Open Scope Z_scope.

(* ===================================================================== *)
(** ** JavaScript primitives                                              *)
(* ===================================================================== *)

Module JS.

(** A JavaScript number value.  Finite doubles are rationals; the two
    infinities and NaN are kept apart.  The two zeros of a double compare
    equal and are both falsy, so one zero is enough. *)
Inductive jsnum : Type :=
| JNaN
| JNegInf
| JFin (q : Q)
| JPosInf.

(** [x < y] on numbers: false as soon as one side is NaN. *)
Definition js_lt (x y : jsnum) : bool :=
  match x, y with
  | JNaN, _ | _, JNaN => false
  | JNegInf, JNegInf => false
  | JNegInf, _ => true
  | _, JNegInf => false
  | JFin p, JFin q => match (p ?= q)%Q with Lt => true | _ => false end
  | JFin _, JPosInf => true
  | JPosInf, _ => false
  end.

(** [x > y] is [y < x]. *)
Definition js_gt (x y : jsnum) : bool := js_lt y x.

(** ToBoolean on a number: NaN and zero are falsy. *)
Definition num_truthy (x : jsnum) : bool :=
  match x with
  | JNaN => false
  | JFin q => negb (Qeq_bool q 0)
  | JNegInf | JPosInf => true
  end.

(** ToBoolean on a string: only the empty string is falsy. *)
Definition str_truthy (s : string) : bool :=
  match s with
  | EmptyString => false
  | String _ _ => true
  end.

(** A number that is not NaN; [x || 0] always is. *)
Definition clean (x : jsnum) : Prop := x <> JNaN.

(** [x || 0] where [x] is a number or [undefined] ([None]). *)
Definition or_zero (x : option jsnum) : jsnum :=
  match x with
  | Some v => if num_truthy v then v else JFin 0
  | None => JFin 0
  end.

(** [s.split(".")]: the pieces between the dots; never an empty array. *)
Fixpoint split_dot_from (cur : string) (s : string) : list string :=
  match s with
  | EmptyString => [String.rev cur]
  | String c s' =>
      if Ascii.eqb c "."%char
      then String.rev cur :: split_dot_from EmptyString s'
      else split_dot_from (String c cur) s'
  end.

Definition split_dot (s : string) : list string := split_dot_from EmptyString s.

(** *** [Number(s)] on a string

    StringToNumber of the language definition, on the strings [split(".")]
    hands over, which never hold a dot: surrounding white space is dropped,
    the empty string is 0, then a binary, octal or hexadecimal integer
    literal, or an optionally signed [Infinity] or decimal integer with an
    optional exponent.  Anything else is NaN.  Values are kept exact: the
    rounding to the nearest double, which starts above 2^53, is not applied,
    and only ASCII white space is recognised. *)

Definition is_ws (c : ascii) : bool :=
  let n := nat_of_ascii c in
  ((9 <=? n)%nat && (n <=? 13)%nat) || (n =? 32)%nat.

Fixpoint trim_start (l : list ascii) : list ascii :=
  match l with
  | c :: l' => if is_ws c then trim_start l' else l
  | [] => []
  end.

Definition trim (l : list ascii) : list ascii :=
  rev (trim_start (rev (trim_start l))).

Definition digit_val (c : ascii) : option Z :=
  let n := Z.of_nat (nat_of_ascii c) in
  if (48 <=? n) && (n <=? 57) then Some (n - 48)
  else if (97 <=? n) && (n <=? 122) then Some (n - 87)
  else if (65 <=? n) && (n <=? 90) then Some (n - 55)
  else None.

Fixpoint digits_val (base acc : Z) (l : list ascii) : option Z :=
  match l with
  | [] => Some acc
  | c :: l' =>
      match digit_val c with
      | Some d => if d <? base then digits_val base (acc * base + d) l' else None
      | None => None
      end
  end.

(** One digit at least. *)
Definition parse_digits (base : Z) (l : list ascii) : option Z :=
  match l with
  | [] => None
  | _ => digits_val base 0 l
  end.

Definition is_exp_mark (c : ascii) : bool :=
  Ascii.eqb c "e"%char || Ascii.eqb c "E"%char.

(** Splits [l] at its first [e] or [E]. *)
Fixpoint split_exp (l : list ascii) : list ascii * option (list ascii) :=
  match l with
  | [] => ([], None)
  | c :: l' =>
      if is_exp_mark c then ([], Some l')
      else let '(m, e) := split_exp l' in (c :: m, e)
  end.

Definition parse_signed (l : list ascii) : option Z :=
  match l with
  | "+"%char :: l' => parse_digits 10 l'
  | "-"%char :: l' => Z.opp <$> parse_digits 10 l'
  | _ => parse_digits 10 l
  end.

Definition scale (m e : Z) : Q :=
  if 0 <=? e then inject_Z (m * 10 ^ e) else Qmake m (Z.to_pos (10 ^ (- e))).

(** An unsigned decimal literal without a dot. *)
Definition parse_decimal (l : list ascii) : option Q :=
  match split_exp l with
  | (m, None) => inject_Z <$> parse_digits 10 m
  | (m, Some e) =>
      match parse_digits 10 m, parse_signed e with
      | Some mv, Some ev => Some (scale mv ev)
      | _, _ => None
      end
  end.

Definition infinity_lit : list ascii := list_ascii_of_string "Infinity".

Definition parse_unsigned (l : list ascii) : jsnum :=
  if decide (l = infinity_lit) then JPosInf
  else match parse_decimal l with
       | Some q => JFin q
       | None => JNaN
       end.

Definition js_neg (x : jsnum) : jsnum :=
  match x with
  | JNaN => JNaN
  | JNegInf => JPosInf
  | JFin q => JFin (- q)
  | JPosInf => JNegInf
  end.

Definition of_int (o : option Z) : jsnum :=
  match o with
  | Some z => JFin (inject_Z z)
  | None => JNaN
  end.

Definition Number (s : string) : jsnum :=
  match trim (list_ascii_of_string s) with
  | [] => JFin 0
  | "0"%char :: "x"%char :: l | "0"%char :: "X"%char :: l => of_int (parse_digits 16 l)
  | "0"%char :: "o"%char :: l | "0"%char :: "O"%char :: l => of_int (parse_digits 8 l)
  | "0"%char :: "b"%char :: l | "0"%char :: "B"%char :: l => of_int (parse_digits 2 l)
  | "+"%char :: l => parse_unsigned l
  | "-"%char :: l => js_neg (parse_unsigned l)
  | l => parse_unsigned l
  end.

End JS.

(* ===================================================================== *)
(** ** Stage 1: the catalog scrape                                        *)
(* ===================================================================== *)

Module Catalog.

(** A catalog entry as the catalog API returns it: [item.component] and
    [item.versions[k].oss.forkPoint]. *)
Record ossInfo := { forkPoint : string }.
Record version := { oss : ossInfo }.
Record item := {
  component : option string;      (* [None]: the property is absent *)
  versions : list version
}.

(** The value stored per component, [{ component, forkPoint }]. *)
Record entry := { entry_component : string; entry_forkPoint : string }.

(** [item.componenty]: no catalog entry has such a property, so the read
    yields [undefined].  The keys of [allComponentsMap] are therefore
    modelled as a string or [undefined] ([None]). *)
Definition componenty (it : item) : option string := None.

(** [Map.prototype.has]. *)
Definition has (m : gmap (option string) entry) (k : option string) : bool :=
  bool_decide (is_Some (m !! k)).

Section ProcessResults.

(** The script calls [compareSemver] without defining or importing it.  It
    is taken as a parameter; [None] stands for a call that throws. *)
Variable compareSemver : string -> string -> option Z.

(** The body of [versionForkPoints.forEach], for an item whose component
    is the string [c].  [None]: an exception escaped. *)
Definition visitForkPoint (it : item) (c : string)
    (allComponentsMap : gmap (option string) entry) (fp : string)
    : option (gmap (option string) entry) :=
  if negb (has allComponentsMap (componenty it)) then
    Some (<[Some c := {| entry_component := c; entry_forkPoint := fp |}]> allComponentsMap)
  else
    existing ← allComponentsMap !! Some c;
    cmp ← compareSemver fp (entry_forkPoint existing);
    if cmp >? 0 then
      Some (<[Some c := {| entry_component := c; entry_forkPoint := fp |}]> allComponentsMap)
    else Some allComponentsMap.

(** A [forEach] or [for ... of] whose body may throw. *)
Fixpoint forEachM {A S : Type} (body : S -> A -> option S) (l : list A) (s : S) : option S :=
  match l with
  | [] => Some s
  | x :: l' => s' ← body s x; forEachM body l' s'
  end.

Definition processItem (allComponentsMap : gmap (option string) entry) (it : item)
    : option (gmap (option string) entry) :=
  let versionForkPoints := (fun v => forkPoint (oss v)) <$> versions it in
  match component it with
  | Some c =>
      if JS.str_truthy c
      then forEachM (visitForkPoint it c) versionForkPoints allComponentsMap
      else Some allComponentsMap
  | None => Some allComponentsMap
  end.

Definition processResults (results : list item) (allComponentsMap : gmap (option string) entry)
    : option (gmap (option string) entry) :=
  forEachM processItem results allComponentsMap.

(** The loop of [fetchAllPages] over the pages' [results], first page
    first, on a map that starts empty. *)
Definition processPages (pages : list (list item)) : option (gmap (option string) entry) :=
  forEachM (fun m results => processResults results m) pages ∅.

End ProcessResults.

(** The (component, forkPoint) pairs observed, in processing order. *)
Definition observedOfItem (it : item) : list (string * string) :=
  match component it with
  | Some c =>
      if JS.str_truthy c then (fun v => (c, forkPoint (oss v))) <$> versions it else []
  | None => []
  end.

Definition observed (pages : list (list item)) : list (string * string) :=
  pages ≫= (fun results => results ≫= observedOfItem).

(** The fork points observed for component [c], in processing order. *)
Definition forkPointsOf (c : string) (obs : list (string * string)) : list string :=
  snd <$> filter (fun p => fst p = c) obs.

(** The map after writing every observed pair in order, the later write
    replacing the earlier one. *)
Definition writeAll (obs : list (string * string)) (m : gmap (option string) entry)
    : gmap (option string) entry :=
  fold_left
    (fun m p => <[Some (fst p) := {| entry_component := fst p; entry_forkPoint := snd p |}]> m)
    obs m.

(** *** fetchPage and fetchAllPages *)

(** What a page of the catalog parses to: [results], on which the loop of
    [processResults] throws when it is missing, and [totalPages]. *)
Record pageData := { results : option (list item); totalPages : option Z }.

(** The effects of the scrape, oldest first. *)
Inductive effect : Type :=
| Fetched (page : nat)
| Slept (ms : Z).

Section FetchAllPages.

Variable compareSemver : string -> string -> option Z.

(** [fetchPage]: the parsed page, or [None] when the promise is rejected
    (the request fails or the body does not parse). *)
Variable fetchPage : nat -> option pageData.

(** [firstPageData.totalPages || 1], an integer. *)
Definition totalOf (d : pageData) : Z :=
  match totalPages d with
  | Some t => if t =? 0 then 1 else t
  | None => 1
  end.

(** [processResults(pageData.results, allComponentsMap)]. *)
Definition processPage (d : pageData) (m : gmap (option string) entry)
    : option (gmap (option string) entry) :=
  match results d with
  | Some rs => processResults compareSemver rs m
  | None => None
  end.

(** The [for] loop from [page] with [n] iterations left. *)
Fixpoint fetchRest (n page : nat) (m : gmap (option string) entry) (log : list effect)
    : option (gmap (option string) entry) * list effect :=
  match n with
  | O => (Some m, log)
  | S n' =>
      let log1 := (log ++ [Slept 2000])%list in
      let log2 := (log1 ++ [Fetched page])%list in
      match fetchPage page with
      | None => (None, log2)
      | Some pageData =>
          match processPage pageData m with
          | None => (None, log2)
          | Some m' => fetchRest n' (S page) m' log2
          end
      end
  end.

(** [fetchAllPages]: the map whose values are returned ([None] when an
    exception escapes), and the effects.  The order of the values is not
    modelled. *)
Definition fetchAllPages : option (gmap (option string) entry) * list effect :=
  let log := [Fetched 1%nat] in
  match fetchPage 1%nat with
  | None => (None, log)
  | Some firstPageData =>
      let totalPages := totalOf firstPageData in
      match processPage firstPageData ∅ with
      | None => (None, log)
      | Some m => fetchRest (Z.to_nat (totalPages - 1)) 2 m log
      end
  end.

(** The number of pages the first page announces, one at least. *)
Definition announced (first : pageData) : nat := Z.to_nat (Z.max 1 (totalOf first)).

(** A page that can be fetched and has results. *)
Definition pageOk (k : nat) : bool :=
  match fetchPage k with
  | Some d => match results d with Some _ => true | None => false end
  | None => false
  end.

(** The results of the page [k], empty when there are none. *)
Definition resultsOf (k : nat) : list item :=
  default [] (fetchPage k ≫= results).

End FetchAllPages.

(** The effects of fetching the pages 1 to [j] one after the other, with
    the pause before each page but the first. *)
Definition schedule (j : nat) : list effect :=
  Fetched 1%nat :: (seq 2 (j - 1) ≫= (fun k => [Slept 2000; Fetched k])).

End Catalog.

(* ===================================================================== *)
(** ** Stage 2: the OSV scrape                                            *)
(* ===================================================================== *)

Module Osv.

Import JS.

(** *** Configuration *)
Definition CONCURRENCY : nat := 2.
Definition RETRY_LIMIT : Z := 5.
Definition INITIAL_DELAY : Z := 1000.
Definition OSV_PATH : string := "/v1/query".

(** *** Data: the records of the vulnerability database and of the run *)

(** A range event; [None] is a property that is absent ([undefined]). *)
Record event := { introduced : option string; fixed : option string }.
Record range := { events : option (list event) }.
Record affectedEntry := { ranges : option (list range) }.
Record reference := { url : option string }.
Record severityEntry := { severity_type : string; score : string }.

Record vuln := {
  id : string;
  summary : option string;
  details : option string;
  severity : option (list severityEntry);
  affected : option (list affectedEntry);
  references : option (list reference)
}.

(** A work item, [{ component, forkPoint }], as stage 1 wrote it. *)
Record WorkItem := { component : string; forkPoint : string }.

(** A value of [allVulns]. *)
Record VulnRecord := {
  rec_id : string;
  rec_summary : string;
  rec_details : string;
  rec_severity : list severityEntry;
  rec_affected : list affectedEntry;
  fixedVersions : list string;
  rec_references : list (option string);
  affectedComponents : list string
}.

(** [x || d] on a value that is [undefined] or an array (arrays are truthy). *)
Definition or_default {A : Type} (x : option (list A)) : list A := default [] x.

(** [x || ""] on a string that may be absent. *)
Definition or_empty (x : option string) : string := default "" x.

(** *** compareSemver *)

(** The [for] loop from index [i] with [n] iterations left. *)
Fixpoint compareSemver_loop (pa pb : list jsnum) (i n : nat) : Z :=
  match n with
  | O => 0
  | S n' =>
      let na := or_zero (pa !! i) in
      let nb := or_zero (pb !! i) in
      if js_gt na nb then 1
      else if js_lt na nb then -1
      else compareSemver_loop pa pb (S i) n'
  end.

(** The comparison once both strings are split and converted. *)
Definition compareParts (pa pb : list jsnum) : Z :=
  compareSemver_loop pa pb 0 (Nat.max (length pa) (length pb)).

Definition compareSemver (a b : string) : Z :=
  let pa := Number <$> split_dot a in
  let pb := Number <$> split_dot b in
  compareParts pa pb.

(** *** isVulnerableAtOrBelow *)

(** The [for ... of r.events] loop: the last [introduced] and the last
    [fixed] seen, [None] standing for the initial [null]. *)
Definition scanEvents (evs : list event) : option string * option string :=
  fold_left
    (fun '(i, f) e =>
       (match introduced e with Some x => Some x | None => i end,
        match fixed e with Some x => Some x | None => f end))
    evs (None, None).

(** The callback of the inner [some]. *)
Definition rangeCovers (targetVersion : string) (r : range) : bool :=
  let '(introduced0, fixed0) := scanEvents (or_default (events r)) in
  let introduced1 :=
    match introduced0 with
    | Some s => if negb (str_truthy s) || String.eqb s "0" then "0.0.0" else s
    | None => "0.0.0"
    end in
  if compareSemver targetVersion introduced1 <? 0 then false
  else if
    match fixed0 with
    | Some f => str_truthy f && (compareSemver targetVersion f >? 0)
    | None => false
    end
  then false
  else true.

Definition isVulnerableAtOrBelow (v : vuln) (targetVersion : string) : bool :=
  match affected v with
  | None => false
  | Some l =>
      existsb (fun a => existsb (rangeCovers targetVersion) (or_default (ranges a))) l
  end.

(** *** httpsPost and osvRequest *)

(** The body of a query, [{ package: { purl } }]. *)
Record packageRef := { purl : string }.
Record query := { package : packageRef }.

(** What [JSON.parse(body)] gives: [null], on which a property read throws,
    or an object with an optional [vulns] array. *)
Inductive payload : Type :=
| PNull
| PObj (vulns : option (list vuln)).

(** What the server does with one request: the connection fails, or a
    status code comes back with a body that parses ([Some]) or not. *)
Inductive response : Type :=
| NetworkError
| Reply (statusCode : Z) (body : option payload).

(** A rejection; only [err.retryable] is ever inspected. *)
Record error := { retryable : bool }.

(** The settled promise of [httpsPost]. *)
Definition settle (r : response) : error + payload :=
  match r with
  | NetworkError => inl {| retryable := false |}
  | Reply statusCode body =>
      if (statusCode =? 429) || (statusCode >=? 500) then inl {| retryable := true |}
      else if (statusCode <? 200) || (statusCode >=? 300) then inl {| retryable := false |}
      else match body with
           | Some p => inr p
           | None => inl {| retryable := false |}
           end
  end.

(** The effects of one [osvRequest] call: the requests written to the
    network and the delays slept, oldest first. *)
Record world := { sent : list (string * query); slept : list Z }.

Definition world0 : world := {| sent := []; slept := [] |}.

Section Network.

(** The server: the response to the k-th request of a call (from 0). *)
Variable net : nat -> response.

Definition httpsPost (path : string) (data : query) (w : world)
    : (error + payload) * world :=
  (settle (net (length (sent w))),
   {| sent := sent w ++ [(path, data)]; slept := slept w |}).

Definition sleep (ms : Z) (w : world) : world :=
  {| sent := sent w; slept := slept w ++ [ms] |}.

(** The [try] block: the request, then [data.vulns || []]. *)
Definition tryQuery (pkg : WorkItem) (w : world) : (error + list vuln) * world :=
  let '(r, w1) :=
    httpsPost OSV_PATH {| package := {| purl := component pkg |} |} w in
  (match r with
   | inl err => inl err
   | inr PNull => inl {| retryable := false |}
   | inr (PObj vs) => inr (or_default vs)
   end, w1).

(** What the [try] block makes of one response: the vulnerabilities, or
    the error that reaches the [catch]. *)
Definition queryOutcome (r : response) : error + list vuln :=
  match settle r with
  | inl err => inl err
  | inr PNull => inl {| retryable := false |}
  | inr (PObj vs) => inr (or_default vs)
  end.

(** Whether [osvRequest] returns on this outcome at this attempt rather
    than calling itself again, and what it returns then. *)
Definition stops (o : error + list vuln) (attempt : Z) : bool :=
  match o with
  | inr _ => true
  | inl err => negb (retryable err && (attempt <=? RETRY_LIMIT))
  end.

Definition resultOf (o : error + list vuln) : list vuln :=
  match o with
  | inr vulns => vulns
  | inl _ => []
  end.

(** The request every attempt for [pkg] writes. *)
Definition requestFor (pkg : WorkItem) : string * query :=
  (OSV_PATH, {| package := {| purl := component pkg |} |}).

(** [osvRequest(pkg, attempt)]; [fuel] bounds the recursion depth and
    [None] is running out of it. *)
Fixpoint osvRequest_from (fuel : nat) (pkg : WorkItem) (attempt : Z) (w : world)
    : option (list vuln * world) :=
  match fuel with
  | O => None
  | S fuel' =>
      match tryQuery pkg w with
      | (inr vulns, w1) => Some (vulns, w1)
      | (inl err, w1) =>
          if retryable err && (attempt <=? RETRY_LIMIT) then
            let delay := INITIAL_DELAY * 2 ^ (attempt - 1) in
            osvRequest_from fuel' pkg (attempt + 1) (sleep delay w1)
          else Some ([], w1)
      end
  end.

(** [osvRequest(pkg)]: [attempt] defaults to 1. *)
Definition osvRequest (pkg : WorkItem) : option (list vuln * world) :=
  osvRequest_from (Z.to_nat RETRY_LIMIT + 1) pkg 1 world0.

End Network.

(** The delays slept before attempts [attempt + 1 .. attempt + k]. *)
Definition delaysFrom (attempt : Z) (k : nat) : list Z :=
  (fun j => INITIAL_DELAY * 2 ^ (attempt + Z.of_nat j - 1)) <$> seq 0 k.

(** A test server and a test item: status 500 four times, then 200 with
    one vulnerability. *)
Definition fourFailures (v : vuln) (k : nat) : response :=
  if (k <? 4)%nat then Reply 500 None else Reply 200 (Some (PObj (Some [v]))).

(** *** extractFixes and the aggregation of the worker *)

(** [Set.prototype.add] on a set kept in insertion order. *)
Definition set_add (s : list string) (x : string) : list string :=
  if decide (x ∈ s) then s else s ++ [x].

(** [[...new Set(l)]]. *)
Definition new_Set (l : list string) : list string := fold_left set_add l [].

Definition extractFixes (v : vuln) : list string :=
  fold_left
    (fun fixes a =>
       fold_left
         (fun fixes r =>
            fold_left
              (fun fixes e =>
                 match fixed e with
                 | Some f => if str_truthy f then set_add fixes f else fixes
                 | None => fixes
                 end)
              (or_default (events r)) fixes)
         (or_default (ranges a)) fixes)
    (or_default (affected v)) [].

(** The two module-level maps. *)
Record store := {
  allVulns : gmap string VulnRecord;
  perPackageCounts : gmap string nat
}.

(** The [if (!allVulns.has(v.id)) ... else ...] of the worker: the record
    operation of the aggregator.  The record found is updated in place,
    which on a map without order is a write under the same key. *)
Definition recordVuln (pkg : WorkItem) (fixes : list string)
    (m : gmap string VulnRecord) (v : vuln) : gmap string VulnRecord :=
  match m !! id v with
  | None =>
      <[id v := {| rec_id := id v;
                   rec_summary := or_empty (summary v);
                   rec_details := or_empty (details v);
                   rec_severity := or_default (severity v);
                   rec_affected := or_default (affected v);
                   fixedVersions := fixes;
                   rec_references := url <$> or_default (references v);
                   affectedComponents := [component pkg] |}]> m
  | Some ex =>
      <[id v := {| rec_id := rec_id ex;
                   rec_summary := rec_summary ex;
                   rec_details := rec_details ex;
                   rec_severity := rec_severity ex;
                   rec_affected := rec_affected ex;
                   fixedVersions := new_Set (fixedVersions ex ++ fixes);
                   rec_references := rec_references ex;
                   affectedComponents :=
                     if decide (component pkg ∈ affectedComponents ex)
                     then affectedComponents ex
                     else affectedComponents ex ++ [component pkg] |}]> m
  end.

(** The body of [for (const v of relevantVulns)]. *)
Definition visitVuln (pkg : WorkItem) (acc : gmap string VulnRecord * nat) (v : vuln)
    : gmap string VulnRecord * nat :=
  let '(m, remediatedCount) := acc in
  let fixes := extractFixes v in
  let remediatedCount := if (0 <? length fixes)%nat then S remediatedCount else remediatedCount in
  (recordVuln pkg fixes m v, remediatedCount).

(** One iteration of the worker's [while] loop once [osvRequest] has
    answered with [vulns]. *)
Definition handleVulns (pkg : WorkItem) (vulns : list vuln) (st : store) : store :=
  match vulns with
  | [] => st
  | _ =>
      let relevantVulns := List.filter (fun v => isVulnerableAtOrBelow v (forkPoint pkg)) vulns in
      let '(m, remediatedCount) :=
        fold_left (visitVuln pkg) relevantVulns (allVulns st, 0%nat) in
      {| allVulns := m;
         perPackageCounts := <[component pkg := remediatedCount]> (perPackageCounts st) |}
  end.

(** One record operation of the aggregator, as the worker performs it for
    a relevant vulnerability [v] found for [pkg], and a sequence of them. *)
Definition recordOp (m : gmap string VulnRecord) (op : vuln * WorkItem)
    : gmap string VulnRecord :=
  fst (visitVuln (snd op) (m, 0%nat) (fst op)).

Definition recordAll (ops : list (vuln * WorkItem)) (m : gmap string VulnRecord)
    : gmap string VulnRecord :=
  fold_left recordOp ops m.

(** The operations of a sequence that report the identifier [i]. *)
Definition reporting (i : string) (ops : list (vuln * WorkItem)) : list (vuln * WorkItem) :=
  filter (fun op => id (fst op) = i) ops.

(** What the map holds for an identifier after the operations [mine] that
    report it: nothing when there are none, otherwise a record with the
    union of the fixed versions and the reporting components. *)
Definition holds (mine : list (vuln * WorkItem)) (o : option VulnRecord) : Prop :=
  match mine with
  | [] => o = None
  | _ =>
      exists r, o = Some r /\
        NoDup (fixedVersions r) /\
        (forall x, x ∈ fixedVersions r <->
                   exists op, op ∈ mine /\ x ∈ extractFixes (fst op)) /\
        affectedComponents r = new_Set ((fun op => component (snd op)) <$> mine)
  end.

(** The vulnerabilities of an answer that affect the item's fork point, and
    how many of them have a fixed version. *)
Definition relevantTo (pkg : WorkItem) (vulns : list vuln) : list vuln :=
  List.filter (fun v => isVulnerableAtOrBelow v (forkPoint pkg)) vulns.

Definition remediated (vulns : list vuln) : nat :=
  length (List.filter (fun v => (0 <? length (extractFixes v))%nat) vulns).

(** A record and a later state of it: the fields copied from the database
    are the same, the components reported so far are still there in the
    same order, and no fixed version is lost. *)
Definition extends (r r' : VulnRecord) : Prop :=
  rec_id r' = rec_id r /\
  rec_summary r' = rec_summary r /\
  rec_details r' = rec_details r /\
  rec_severity r' = rec_severity r /\
  rec_affected r' = rec_affected r /\
  rec_references r' = rec_references r /\
  (affectedComponents r `prefix_of` affectedComponents r') /\
  (forall x, x ∈ fixedVersions r -> x ∈ fixedVersions r').

(** A well-formed record under the key [i], the reporting components
    being among [components]. *)
Definition recordOk (components : list string) (i : string) (r : VulnRecord) : Prop :=
  rec_id r = i /\
  NoDup (fixedVersions r) /\
  ("" ∉ fixedVersions r) /\
  NoDup (affectedComponents r) /\
  affectedComponents r <> [] /\
  (forall c, c ∈ affectedComponents r -> c ∈ components).

Definition recordsOk (components : list string) (m : gmap string VulnRecord) : Prop :=
  forall i r, m !! i = Some r -> recordOk components i r.

(** *** The worker lanes

    The script runs on one thread: a lane runs without interruption from
    one [await] to the next.  The only [await] of [worker] is the one on
    [osvRequest], so a lane is at the head of its loop, waiting for the
    answer on an item it took, or gone.  The steps of the lanes interleave
    in any order; the answer of the server to each item is arbitrary. *)

Inductive lane : Type :=
| AtLoopHead
| Awaiting (pkg : WorkItem)
| Exited.

#[global] Instance WorkItem_eq_dec : EqDecision WorkItem.
Proof. solve_decision. Defined.

#[global] Instance lane_eq_dec : EqDecision lane.
Proof. solve_decision. Defined.

Record state := {
  queue : list WorkItem;
  lanes : list lane;
  shared : store
}.

Inductive label : Type :=
| Dequeue (i : nat) (pkg : WorkItem)
| Finish (i : nat) (pkg : WorkItem) (net : nat -> response) (vulns : list vuln) (w : world)
| Exit (i : nat).

Inductive step : state -> label -> state -> Prop :=
| step_dequeue s i pkg rest :
    lanes s !! i = Some AtLoopHead ->
    queue s = pkg :: rest ->
    step s (Dequeue i pkg)
      {| queue := rest; lanes := <[i := Awaiting pkg]> (lanes s); shared := shared s |}
| step_exit s i :
    lanes s !! i = Some AtLoopHead ->
    queue s = [] ->
    step s (Exit i)
      {| queue := queue s; lanes := <[i := Exited]> (lanes s); shared := shared s |}
| step_finish s i pkg net vulns w :
    lanes s !! i = Some (Awaiting pkg) ->
    osvRequest net pkg = Some (vulns, w) ->
    step s (Finish i pkg net vulns w)
      {| queue := queue s; lanes := <[i := AtLoopHead]> (lanes s);
         shared := handleVulns pkg vulns (shared s) |}.

(** Executions with their traces. *)
Inductive exec : state -> list label -> state -> Prop :=
| exec_nil s : exec s [] s
| exec_cons s l s' tr s'' : step s l s' -> exec s' tr s'' -> exec s (l :: tr) s''.

(** [main] with [n] lanes on the packages read from the file: the queue is
    a copy of the list, and the maps start empty. *)
Definition start (packages : list WorkItem) (n : nat) : state :=
  {| queue := packages;
     lanes := replicate n AtLoopHead;
     shared := {| allVulns := ∅; perPackageCounts := ∅ |} |}.

Definition main_start (packages : list WorkItem) : state := start packages CONCURRENCY.

(** [Promise.all(workers)] has resolved: every lane is gone. *)
Definition completed (s : state) : Prop := Forall (fun l => l = Exited) (lanes s).

(** The items taken from the queue and the items finished, in trace order. *)
Definition dequeued (tr : list label) : list WorkItem :=
  tr ≫= (fun l => match l with Dequeue _ pkg => [pkg] | _ => [] end).

Definition finished (tr : list label) : list WorkItem :=
  tr ≫= (fun l => match l with Finish _ pkg _ _ _ => [pkg] | _ => [] end).

(** Every request written to the network during a trace. *)
Definition requests (tr : list label) : list (string * query) :=
  tr ≫= (fun l => match l with Finish _ _ _ _ w => sent w | _ => [] end).

(** The items the lanes are waiting on. *)
Definition awaiting (ls : list lane) : list WorkItem :=
  ls ≫= (fun l => match l with Awaiting pkg => [pkg] | _ => [] end).

(** The steps a lane still has to take at least, and the steps left to a
    state: a queued item costs a dequeue and a finish, and its lane comes
    back to the loop head. *)
Definition laneWeight (l : lane) : nat :=
  match l with
  | AtLoopHead => 1
  | Awaiting _ => 2
  | Exited => 0
  end.

Definition stepsLeft (s : state) : nat :=
  3 * length (queue s) + sum_list (laneWeight <$> lanes s).

(** A lane leaves only once the queue is empty. *)
Definition drained (s : state) : Prop := Exited ∈ lanes s -> queue s = [].

(** The query of a finished item succeeded: its last request was answered
    by a payload the [try] block accepted. *)
Definition querySucceeded (net : nat -> response) (w : world) : Prop :=
  exists vulns, queryOutcome (net (pred (length (sent w)))) = inr vulns.

(** A server that answers 200 with an empty list of vulnerabilities. *)
Definition noVulns (k : nat) : response := Reply 200 (Some (PObj (Some []))).

(** What a run keeps true of its state: the items in the queue or awaited
    come from the packages, and the records are well formed. *)
Definition runOk (packages : list WorkItem) (s : state) : Prop :=
  (forall pkg, pkg ∈ queue s \/ pkg ∈ awaiting (lanes s) -> pkg ∈ packages) /\
  recordsOk (component <$> packages) (allVulns (shared s)).

(** *** parsePurl

    The pattern is [^pkg:([^\/]+)\/([^@]+)(?:@(.+))?].  Both classes are
    greedy and cannot cross their delimiter, so the match, when there is
    one, is the only one. *)

(** The longest prefix whose characters satisfy [ok], and the rest. *)
Fixpoint span (ok : ascii -> bool) (s : string) : string * string :=
  match s with
  | EmptyString => (EmptyString, EmptyString)
  | String c s' =>
      if ok c then let '(p, r) := span ok s' in (String c p, r)
      else (EmptyString, s)
  end.

Definition strip_prefix (p s : string) : option string :=
  if String.prefix p s then Some (String.substring (String.length p) (String.length s - String.length p) s)
  else None.

(** What [.] refuses among the one-byte characters: line feed and
    carriage return. *)
Definition is_line_end (c : ascii) : bool :=
  Ascii.eqb c "010"%char || Ascii.eqb c "013"%char.

Record Purl := { registry : string; purl_component : string; purl_version : option string }.

Definition parsePurl (p : string) : option Purl :=
  match strip_prefix "pkg:" p with
  | None => None
  | Some s1 =>
      let '(m1, s2) := span (fun c => negb (Ascii.eqb c "/"%char)) s1 in
      match m1, s2 with
      | String _ _, String _ s3 =>
          let '(m2, s4) := span (fun c => negb (Ascii.eqb c "@"%char)) s3 in
          match m2 with
          | EmptyString => None
          | String _ _ =>
              let m3 :=
                match s4 with
                | String _ s5 =>
                    let '(ver, _) := span (fun c => negb (is_line_end c)) s5 in
                    if str_truthy ver then Some ver else None
                | EmptyString => None
                end in
              let registry1 := if String.eqb m1 "gem" then "RubyGems" else m1 in
              let registry2 := if String.eqb registry1 "maven" then "Maven" else registry1 in
              let registry3 := if String.eqb registry2 "composer" then "Packagist" else registry2 in
              Some {| registry := registry3; purl_component := m2; purl_version := m3 |}
          end
      | _, _ => None
      end
  end.

End Osv.

(* ===================================================================== *)
(** ** The design document's reading of the range matcher                 *)
(* ===================================================================== *)

Module Design.

Import Osv.

(** The last [introduced] and the last [fixed] event of a range. *)
Definition lastIntroduced (r : range) : option string :=
  last (omap introduced (or_default (events r))).

Definition lastFixed (r : range) : option string :=
  last (omap fixed (or_default (events r))).

(** The effective [introduced] bound: the last one seen, the zero version
    when there is none or when it is literally ["0"]. *)
Definition effectiveIntroduced (r : range) : string :=
  match lastIntroduced r with
  | None => "0.0.0"
  | Some s => if String.eqb s "0" then "0.0.0" else s
  end.

(** A range covers the target when the effective [introduced] bound is at
    most the target and the target is at most the [fixed] bound, when one
    exists. *)
Definition rangeAffects (targetVersion : string) (r : range) : Prop :=
  compareSemver (effectiveIntroduced r) targetVersion <= 0 /\
  forall f, lastFixed r = Some f -> compareSemver targetVersion f <= 0.

Definition affectedAt (v : vuln) (targetVersion : string) : Prop :=
  exists a r,
    a ∈ or_default (affected v) /\ r ∈ or_default (ranges a) /\
    rangeAffects targetVersion r.

(** The same, where a [fixed] bound that is the empty string counts as no
    bound. *)
Definition rangeAffectsNonEmpty (targetVersion : string) (r : range) : Prop :=
  compareSemver (effectiveIntroduced r) targetVersion <= 0 /\
  forall f, lastFixed r = Some f -> f <> "" -> compareSemver targetVersion f <= 0.

Definition affectedAtNonEmpty (v : vuln) (targetVersion : string) : Prop :=
  exists a r,
    a ∈ or_default (affected v) /\ r ∈ or_default (ranges a) /\
    rangeAffectsNonEmpty targetVersion r.

(** A vulnerability whose single affected entry has a single range with
    the given events. *)
Definition singleRange (v : vuln) (evs : list event) : vuln :=
  {| id := id v; summary := summary v; details := details v;
     severity := severity v;
     affected := Some [ {| ranges := Some [ {| events := Some evs |} ] |} ];
     references := references v |}.

(** Each element once, in the order of the first occurrences. *)
Fixpoint firstOccurrences (l : list string) : list string :=
  match l with
  | [] => []
  | x :: l' => x :: filter (fun y => y <> x) (firstOccurrences l')
  end.

(** A vulnerability [i] whose only event is a [fixed] at version [f]. *)
Definition fixedAt (i f : string) : vuln :=
  {| id := i; summary := None; details := None; severity := None;
     affected :=
       Some [ {| ranges := Some [ {| events :=
         Some [ {| introduced := None; fixed := Some f |} ] |} ] |} ];
     references := None |}.

(** A work item, and the effects of a call for it that is answered at
    once. *)
Definition pkgA : WorkItem := {| component := "pkg:gem/rails"; forkPoint := "5.0.0" |}.

Definition oneRequest : world := {| sent := [requestFor pkgA]; slept := [] |}.

(** A second work item, the record the worker makes of the vulnerability
    [V1] fixed at 6.0.0 when [pkgA] reports it, and a state in which [pkgB]
    is awaited after that. *)
Definition pkgB : WorkItem := {| component := "pkg:gem/rack"; forkPoint := "5.0.0" |}.

Definition recordV1 : VulnRecord :=
  {| rec_id := "V1"; rec_summary := ""; rec_details := ""; rec_severity := [];
     rec_affected := or_default (affected (fixedAt "V1" "6.0.0"));
     fixedVersions := ["6.0.0"]; rec_references := [];
     affectedComponents := ["pkg:gem/rails"] |}.

Definition afterPkgA : state :=
  {| queue := []; lanes := [Awaiting pkgB; Exited];
     shared := handleVulns pkgA [fixedAt "V1" "6.0.0"]
                 {| allVulns := ∅; perPackageCounts := ∅ |} |}.

(** The summary has an entry for every component whose item was processed
    with a query that succeeded. *)
Definition summaryCoversSuccessful : Prop :=
  forall packages n tr s,
    exec (start packages n) tr s -> completed s ->
    forall i pkg net vulns w,
      Finish i pkg net vulns w ∈ tr -> querySucceeded net w ->
      is_Some (perPackageCounts (shared s) !! component pkg).

(** A server that answers 200 with the one vulnerability [v]. *)
Definition oneVuln (v : vuln) (k : nat) : response := Reply 200 (Some (PObj (Some [v]))).

(** A catalog of two pages: the console component at 5.2.0 on the first
    page, which announces two pages, and at 5.3.0 on the second. *)
Definition consoleAt (fp : string) : Catalog.item :=
  {| Catalog.component := Some "pkg:composer/symfony/console";
     Catalog.versions := [ {| Catalog.oss := {| Catalog.forkPoint := fp |} |} ] |}.

Definition twoPages (k : nat) : option Catalog.pageData :=
  match k with
  | 1%nat => Some {| Catalog.results := Some [consoleAt "5.2.0"];
                     Catalog.totalPages := Some 2 |}
  | 2%nat => Some {| Catalog.results := Some [consoleAt "5.3.0"];
                     Catalog.totalPages := Some 7 |}
  | _ => None
  end.

(** The same catalog when the second page cannot be fetched. *)
Definition onePageOfTwo (k : nat) : option Catalog.pageData :=
  match k with
  | 1%nat => twoPages 1
  | _ => None
  end.

(** Every character of a string passes a test. *)
Fixpoint all_chars (ok : ascii -> bool) (s : string) : bool :=
  match s with
  | EmptyString => true
  | String c s' => ok c && all_chars ok s'
  end.

(** The canonical name of a registry token. *)
Definition normalizeRegistry (reg : string) : string :=
  if String.eqb reg "gem" then "RubyGems"
  else if String.eqb reg "maven" then "Maven"
  else if String.eqb reg "composer" then "Packagist"
  else reg.


(** A vulnerability with one range whose only event is a [fixed] that is
    the empty string. *)
Definition emptyFixedVuln : vuln :=
  {| id := "V"; summary := None; details := None; severity := None;
     affected :=
       Some [ {| ranges := Some [ {| events :=
         Some [ {| introduced := None; fixed := Some "" |} ] |} ] |} ];
     references := None |}.

End Design.

(* ===================================================================== *)
(** ** The version comparator                                             *)
(* ===================================================================== *)

Section Comparator.

Import JS Osv.

Lemma or_zero_clean o : clean (or_zero o).
Proof.
  destruct o as [[]|]; simpl; try discriminate.
  destruct (negb _); discriminate.
Qed.

Ltac order_cases :=
  repeat match goal with
         | x : jsnum |- _ => destruct x
         end;
  simpl in *; try congruence;
  repeat match goal with
         | H : context [(?p ?= ?q)%Q] |- _ => destruct (Qcompare_spec p q)
         | |- context [(?p ?= ?q)%Q] => destruct (Qcompare_spec p q)
         end;
  try congruence; try lra.

Lemma js_lt_irrefl x : js_lt x x = false.
Proof. order_cases. Qed.

Lemma js_lt_asym x y : js_lt x y = true -> js_lt y x = false.
Proof. order_cases. Qed.

Lemma js_lt_trans x y z : js_lt x y = true -> js_lt y z = true -> js_lt x z = true.
Proof. order_cases. Qed.

(** On numbers that are not NaN, being neither below nor above is an
    equivalence that [<] respects. *)
Lemma js_lt_eqv_l x y z :
  clean x -> clean y -> clean z ->
  js_lt x y = false -> js_lt y x = false -> js_lt y z = true -> js_lt x z = true.
Proof. unfold clean. order_cases. Qed.

Lemma js_lt_eqv_r x y z :
  clean x -> clean y -> clean z ->
  js_lt x y = true -> js_lt y z = false -> js_lt z y = false -> js_lt x z = true.
Proof. unfold clean. order_cases. Qed.

Lemma js_eqv_trans x y z :
  clean x -> clean y -> clean z ->
  js_lt x y = false -> js_lt y x = false ->
  js_lt y z = false -> js_lt z y = false ->
  js_lt x z = false /\ js_lt z x = false.
Proof. unfold clean. split; order_cases. Qed.

(** Past the end of both arrays every position reads as 0. *)
Lemma loop_past_end pa pb i n :
  (length pa <= i)%nat -> (length pb <= i)%nat ->
  compareSemver_loop pa pb i n = 0.
Proof.
  revert i. induction n as [|n IH]; intros i Ha Hb; simpl; [done|].
  rewrite (lookup_ge_None_2 pa i), (lookup_ge_None_2 pb i) by lia.
  simpl. apply IH; lia.
Qed.

(** Running the loop longer than the longer array changes nothing. *)
Lemma loop_extend pa pb i n k :
  (Nat.max (length pa) (length pb) <= i + n)%nat ->
  compareSemver_loop pa pb i (n + k) = compareSemver_loop pa pb i n.
Proof.
  revert i. induction n as [|n IH]; intros i H; simpl.
  - apply loop_past_end; lia.
  - destruct (js_gt _ _); [done|]. destruct (js_lt _ _); [done|].
    apply IH. lia.
Qed.

Lemma compareParts_upto pa pb N :
  (Nat.max (length pa) (length pb) <= N)%nat ->
  compareParts pa pb = compareSemver_loop pa pb 0 N.
Proof.
  intros H. unfold compareParts.
  replace N with (Nat.max (length pa) (length pb) + (N - Nat.max (length pa) (length pb)))%nat by lia.
  symmetry. apply loop_extend. lia.
Qed.

Lemma loop_refl pa i n : compareSemver_loop pa pa i n = 0.
Proof.
  revert i. induction n as [|n IH]; intros i; simpl; [done|].
  unfold js_gt. rewrite js_lt_irrefl. apply IH.
Qed.

Lemma loop_antisym pa pb i n :
  compareSemver_loop pa pb i n = - compareSemver_loop pb pa i n.
Proof.
  revert i. induction n as [|n IH]; intros i; simpl; [done|].
  unfold js_gt.
  destruct (js_lt (or_zero (pb !! i)) (or_zero (pa !! i))) eqn:E1.
  - rewrite (js_lt_asym _ _ E1). done.
  - destruct (js_lt (or_zero (pa !! i)) (or_zero (pb !! i))); [done|]. apply IH.
Qed.

Lemma loop_range pa pb i n :
  compareSemver_loop pa pb i n = -1 \/ compareSemver_loop pa pb i n = 0 \/
  compareSemver_loop pa pb i n = 1.
Proof.
  revert i. induction n as [|n IH]; intros i; simpl; [auto|].
  destruct (js_gt _ _); [auto|]. destruct (js_lt _ _); [auto|]. apply IH.
Qed.

Lemma loop_trans pa pb pc i n :
  compareSemver_loop pa pb i n <= 0 ->
  compareSemver_loop pb pc i n <= 0 ->
  compareSemver_loop pa pc i n <= 0.
Proof.
  revert i. induction n as [|n IH]; intros i; simpl; [done|].
  unfold js_gt.
  pose proof (or_zero_clean (pa !! i)) as Ca.
  pose proof (or_zero_clean (pb !! i)) as Cb.
  pose proof (or_zero_clean (pc !! i)) as Cc.
  set (a := or_zero (pa !! i)) in *.
  set (b := or_zero (pb !! i)) in *.
  set (c := or_zero (pc !! i)) in *.
  destruct (js_lt b a) eqn:Eba; [lia|].
  destruct (js_lt c b) eqn:Ecb; [lia|].
  destruct (js_lt a b) eqn:Eab.
  - intros _ _.
    assert (js_lt a c = true) as Hac.
    { destruct (js_lt b c) eqn:Ebc.
      - exact (js_lt_trans a b c Eab Ebc).
      - apply (js_lt_eqv_r a b c); auto. }
    rewrite (js_lt_asym _ _ Hac), Hac. lia.
  - destruct (js_lt b c) eqn:Ebc.
    + intros _ _.
      assert (js_lt a c = true) as Hac by (apply (js_lt_eqv_l a b c); auto).
      rewrite (js_lt_asym _ _ Hac), Hac. lia.
    + destruct (js_eqv_trans a b c) as [-> ->]; auto.
Qed.

Lemma compareParts_refl pa : compareParts pa pa = 0.
Proof. apply loop_refl. Qed.

Lemma compareParts_antisym pa pb : compareParts pa pb = - compareParts pb pa.
Proof.
  unfold compareParts. rewrite (Nat.max_comm (length pb)). apply loop_antisym.
Qed.

Lemma compareParts_trans pa pb pc :
  compareParts pa pb <= 0 -> compareParts pb pc <= 0 -> compareParts pa pc <= 0.
Proof.
  set (N := Nat.max (length pa) (Nat.max (length pb) (length pc))).
  rewrite (compareParts_upto pa pb N), (compareParts_upto pb pc N),
    (compareParts_upto pa pc N) by lia.
  apply loop_trans.
Qed.

Lemma compareSemver_antisym a b : compareSemver a b = - compareSemver b a.
Proof. apply compareParts_antisym. Qed.

Lemma compareSemver_range a b :
  compareSemver a b = -1 \/ compareSemver a b = 0 \/ compareSemver a b = 1.
Proof. apply loop_range. Qed.

(** C7: [compareSemver] is reflexive, antisymmetric and transitive on all
    version strings, [compareSemver "1.2.0" "1.2" = 0] and
    [compareSemver "2.0.0" "1.9.9" = 1]. *)
Theorem compareSemver_preorder :
  (forall a, compareSemver a a = 0) /\
  (forall a b, compareSemver a b = - compareSemver b a) /\
  (forall a b c,
      compareSemver a b <= 0 -> compareSemver b c <= 0 -> compareSemver a c <= 0) /\
  compareSemver "1.2.0" "1.2" = 0 /\
  compareSemver "2.0.0" "1.9.9" = 1.
Proof.
  split; [|split; [|split; [|split]]].
  - intros a. apply compareParts_refl.
  - apply compareSemver_antisym.
  - intros a b c. apply compareParts_trans.
  - reflexivity.
  - reflexivity.
Qed.

Lemma compareSemver_preorder_witness :
  compareSemver "1.0" "1.5" <= 0 /\ compareSemver "1.5" "2.0" <= 0 /\
  compareSemver "1.0" "2.0" <= 0.
Proof.
  assert (compareSemver "1.0" "1.5" <= 0) as H1 by (vm_compute; discriminate).
  assert (compareSemver "1.5" "2.0" <= 0) as H2 by (vm_compute; discriminate).
  split; [exact H1|]. split; [exact H2|].
  exact (proj1 (proj2 (proj2 compareSemver_preorder)) "1.0" "1.5" "2.0" H1 H2).
Defined.

End Comparator.

(* ===================================================================== *)
(** ** The fork-point resolver                                            *)
(* ===================================================================== *)

Section ForkPoints.

Import Catalog.

Variable compareSemver : string -> string -> option Z.

Lemma writeAll_app obs1 obs2 m :
  writeAll (obs1 ++ obs2) m = writeAll obs2 (writeAll obs1 m).
Proof. apply fold_left_app. Qed.

(** No write ever uses the key [undefined]. *)
Lemma writeAll_undefined obs m : m !! None = None -> writeAll obs m !! None = None.
Proof.
  revert m. induction obs as [|p obs IH]; intros m H; simpl; [done|].
  apply IH. by rewrite lookup_insert_ne.
Qed.

Lemma has_undefined m : m !! None = None -> has m None = false.
Proof.
  intros H. unfold has. apply bool_decide_eq_false. rewrite H. by intros [? ?].
Qed.

(** With no [undefined] key in the map the membership test fails, and the
    fork point is written without any comparison. *)
Lemma visitForkPoint_writes it c m fp :
  m !! None = None ->
  visitForkPoint compareSemver it c m fp =
  Some (<[Some c := {| entry_component := c; entry_forkPoint := fp |}]> m).
Proof.
  intros H. unfold visitForkPoint, componenty. by rewrite (has_undefined m H).
Qed.

Lemma forEach_visit it c fps m :
  m !! None = None ->
  forEachM (visitForkPoint compareSemver it c) fps m =
  Some (writeAll ((fun fp => (c, fp)) <$> fps) m).
Proof.
  revert m. induction fps as [|fp fps IH]; intros m H; simpl; [done|].
  rewrite (visitForkPoint_writes it c m fp H). simpl.
  apply IH. by rewrite lookup_insert_ne.
Qed.

Lemma processItem_writes m it :
  m !! None = None ->
  processItem compareSemver m it = Some (writeAll (observedOfItem it) m).
Proof.
  intros H. unfold processItem, observedOfItem.
  destruct (component it) as [c|]; [|done].
  destruct (JS.str_truthy c); [|done].
  rewrite (forEach_visit it c _ m H). by rewrite <- list_fmap_compose.
Qed.

Lemma processResults_writes results m :
  m !! None = None ->
  processResults compareSemver results m =
  Some (writeAll (results ≫= observedOfItem) m).
Proof.
  unfold processResults.
  revert m. induction results as [|it results IH]; intros m H; simpl; [done|].
  rewrite (processItem_writes m it H). simpl.
  rewrite (IH _ (writeAll_undefined _ m H)). by rewrite writeAll_app.
Qed.

Lemma forEach_pages pages m :
  m !! None = None ->
  forEachM (fun m results => processResults compareSemver results m) pages m =
  Some (writeAll (observed pages) m).
Proof.
  revert m. induction pages as [|results pages IH]; intros m H; simpl; [done|].
  rewrite (processResults_writes results m H). simpl.
  rewrite (IH _ (writeAll_undefined _ m H)).
  unfold observed. simpl. by rewrite writeAll_app.
Qed.

Lemma processPages_writes pages :
  processPages compareSemver pages = Some (writeAll (observed pages) ∅).
Proof. apply forEach_pages. apply lookup_empty. Qed.

Lemma forkPointsOf_cons c p obs :
  forkPointsOf c (p :: obs) =
  if decide (fst p = c) then snd p :: forkPointsOf c obs else forkPointsOf c obs.
Proof.
  unfold forkPointsOf. rewrite filter_cons. by destruct (decide (fst p = c)).
Qed.

(** After the writes a component holds the last fork point written for
    it, or what it held before when none was. *)
Lemma writeAll_lookup obs m c :
  writeAll obs m !! Some c =
  match last (forkPointsOf c obs) with
  | Some fp => Some {| entry_component := c; entry_forkPoint := fp |}
  | None => m !! Some c
  end.
Proof.
  revert m. induction obs as [|p obs IH]; intros m; simpl; [done|].
  rewrite IH, forkPointsOf_cons.
  destruct (decide (fst p = c)) as [<-|Hne].
  - rewrite last_cons. destruct (last _); [done|].
    by rewrite lookup_insert_eq.
  - destruct (last _); [done|].
    rewrite lookup_insert_ne; [done|congruence].
Qed.

(** C9: the membership test of [processResults] reads [item.componenty],
    which is [undefined] and never a key, so whatever [compareSemver] is
    (even if every call to it throws) the run ends normally, the map has no
    [undefined] key, and each component holds the last fork point observed
    for it in processing order. *)
Theorem processPages_keeps_last pages :
  exists m,
    processPages compareSemver pages = Some m /\
    has m None = false /\
    (forall it c fp,
        visitForkPoint compareSemver it c m fp =
        Some (<[Some c := {| entry_component := c; entry_forkPoint := fp |}]> m)) /\
    forall c,
      m !! Some c =
      (fun fp => {| entry_component := c; entry_forkPoint := fp |}) <$>
        last (forkPointsOf c (observed pages)).
Proof.
  exists (writeAll (observed pages) ∅).
  assert (writeAll (observed pages) ∅ !! None = None) as Hu
    by (apply writeAll_undefined, lookup_empty).
  split; [apply processPages_writes|].
  split; [by apply has_undefined|].
  split; [intros; by apply visitForkPoint_writes|].
  intros c. rewrite writeAll_lookup, lookup_empty.
  by destruct (last _).
Qed.

End ForkPoints.

(** C1: on one catalog entry for component [a] with fork points 2.0.0 then
    1.0.0, and with the comparator of the OSV scrape in scope, the resolver
    retains 1.0.0 although 2.0.0 is the greater one. *)
Theorem processPages_retains_last_not_max :
  let cmp := fun a b => Some (Osv.compareSemver a b) in
  let pages :=
    [[ {| Catalog.component := Some "a";
          Catalog.versions :=
            [ {| Catalog.oss := {| Catalog.forkPoint := "2.0.0" |} |};
              {| Catalog.oss := {| Catalog.forkPoint := "1.0.0" |} |} ] |} ]] in
  exists m,
    Catalog.processPages cmp pages = Some m /\
    m !! Some "a" =
      Some {| Catalog.entry_component := "a"; Catalog.entry_forkPoint := "1.0.0" |} /\
    Osv.compareSemver "2.0.0" "1.0.0" = 1.
Proof.
  intros cmp pages. eexists. split; [apply processPages_writes|].
  split; [|reflexivity].
  rewrite writeAll_lookup. reflexivity.
Qed.

(* ===================================================================== *)
(** ** The range matcher                                                  *)
(* ===================================================================== *)

Section RangeMatcher.

Import JS Osv Design.

(** The loop reads its arrays only through [x || 0]. *)
Lemma loop_ext_r pa pb pb' i n :
  (forall j, or_zero (pb !! j) = or_zero (pb' !! j)) ->
  compareSemver_loop pa pb i n = compareSemver_loop pa pb' i n.
Proof.
  intros H. revert i. induction n as [|n IH]; intros i; simpl; [done|].
  by rewrite H, IH.
Qed.

Lemma compareParts_zeros pa :
  compareParts pa [JFin 0] = compareParts pa [JFin 0; JFin 0; JFin 0].
Proof.
  set (N := Nat.max (length pa) 3).
  rewrite (compareParts_upto pa [JFin 0] N), (compareParts_upto pa [_; _; _] N)
    by (simpl; lia).
  apply loop_ext_r. intros [|[|[|j]]]; reflexivity.
Qed.

(** The empty string compares like the zero version. *)
Lemma compareSemver_empty t : compareSemver t "" = compareSemver t "0.0.0".
Proof. apply compareParts_zeros. Qed.

Lemma compareSemver_zero t : compareSemver t "0" = compareSemver t "0.0.0".
Proof. apply compareParts_zeros. Qed.

Lemma omap_head {A B} (f : A -> option B) (x : A) (l : list A) :
  omap f (x :: l) = match f x with Some y => y :: omap f l | None => omap f l end.
Proof. reflexivity. Qed.

(** The event loop keeps the last value of each kind. *)
Lemma scanEvents_from evs i0 f0 :
  fold_left
    (fun '(i, f) e =>
       (match introduced e with Some x => Some x | None => i end,
        match fixed e with Some x => Some x | None => f end))
    evs (i0, f0) =
  (match last (omap introduced evs) with Some x => Some x | None => i0 end,
   match last (omap fixed evs) with Some x => Some x | None => f0 end).
Proof.
  revert i0 f0. induction evs as [|e evs IH]; intros i0 f0; [done|].
  cbn [fold_left]. rewrite IH, !omap_head.
  destruct (introduced e), (fixed e); rewrite ?last_cons;
    destruct (last (omap introduced evs)), (last (omap fixed evs)); reflexivity.
Qed.

Lemma scanEvents_last r :
  scanEvents (or_default (events r)) = (lastIntroduced r, lastFixed r).
Proof.
  unfold scanEvents, lastIntroduced, lastFixed. rewrite scanEvents_from.
  by do 2 destruct (last _).
Qed.

Lemma str_truthy_spec s : str_truthy s = true <-> s <> "".
Proof. destruct s; simpl; split; congruence. Qed.

(** The code's lower bound is the design's effective bound, up to the
    comparator. *)
Lemma lower_bound_agrees t r :
  compareSemver t
    (match lastIntroduced r with
     | Some s => if negb (str_truthy s) || String.eqb s "0" then "0.0.0" else s
     | None => "0.0.0"
     end) = compareSemver t (effectiveIntroduced r).
Proof.
  unfold effectiveIntroduced. destruct (lastIntroduced r) as [s|]; [|done].
  destruct (String.eqb s "0") eqn:E; [by rewrite orb_true_r|].
  rewrite orb_false_r. destruct s; simpl; [|done].
  symmetry. apply compareSemver_empty.
Qed.

Lemma rangeCovers_spec t r : rangeCovers t r = true <-> rangeAffectsNonEmpty t r.
Proof.
  unfold rangeCovers, rangeAffectsNonEmpty.
  rewrite scanEvents_last, lower_bound_agrees.
  rewrite (compareSemver_antisym (effectiveIntroduced r) t).
  destruct (Z.ltb_spec (compareSemver t (effectiveIntroduced r)) 0) as [Hlt|Hge].
  { split; [done|]. intros [H _]. lia. }
  destruct (lastFixed r) as [f|].
  - destruct (str_truthy f) eqn:Ef; simpl.
    + destruct (Z.gtb_spec (compareSemver t f) 0) as [Hgt|Hle].
      * split; [done|]. intros [_ H].
        specialize (H f eq_refl (proj1 (str_truthy_spec f) Ef)). lia.
      * split; [|done]. intros _. split; [lia|]. by intros ? [= <-] _.
    + split; [|done]. intros _. split; [lia|]. intros ? [= <-] Hne.
      apply str_truthy_spec in Hne. congruence.
  - split; [|done]. intros _. split; [lia|]. by intros ? [=].
Qed.

Lemma existsb_elem_of {A} (f : A -> bool) (l : list A) :
  existsb f l = true <-> exists x, x ∈ l /\ f x = true.
Proof.
  rewrite existsb_exists. by setoid_rewrite list_elem_of_In.
Qed.

Lemma isVulnerableAtOrBelow_spec v t :
  isVulnerableAtOrBelow v t = true <-> affectedAtNonEmpty v t.
Proof.
  unfold isVulnerableAtOrBelow, affectedAtNonEmpty.
  destruct (affected v) as [l|]; simpl.
  - rewrite existsb_elem_of. split.
    + intros (a & Ha & Hr). apply existsb_elem_of in Hr as (r & Hr & Hc).
      exists a, r. by rewrite <- rangeCovers_spec.
    + intros (a & r & Ha & Hr & Hc). exists a. split; [done|].
      apply existsb_elem_of. exists r. by rewrite rangeCovers_spec.
  - split; [done|]. intros (a & r & Ha & _). by apply elem_of_nil in Ha.
Qed.

(** C3, as stated, fails: a range whose last [fixed] event is the empty
    string has a [fixed] bound in the claim's sense, the target 1.0.0 is
    above it, and yet the code answers true. *)
Lemma isVulnerableAtOrBelow_empty_fixed :
  ~ (isVulnerableAtOrBelow emptyFixedVuln "1.0.0" = true <->
     affectedAt emptyFixedVuln "1.0.0").
Proof.
  intros [H _]. destruct (H eq_refl) as (a & r & Ha & Hr & _ & Hf).
  simpl in Ha. apply list_elem_of_singleton in Ha as ->.
  simpl in Hr. apply list_elem_of_singleton in Hr as ->.
  specialize (Hf "" eq_refl). vm_compute in Hf. by apply Hf.
Qed.

(** C3 (amended): [isVulnerableAtOrBelow] answers true exactly when some
    affected entry has some range whose effective [introduced] bound is at
    most the target and, when the last [fixed] event exists and is not the
    empty string, the target is at most it; without any range it answers
    false. *)
Theorem isVulnerableAtOrBelow_iff v t :
  (isVulnerableAtOrBelow v t = true <-> affectedAtNonEmpty v t) /\
  ((forall a, a ∈ or_default (affected v) -> or_default (ranges a) = []) ->
   isVulnerableAtOrBelow v t = false).
Proof.
  split; [apply isVulnerableAtOrBelow_spec|].
  intros Hno. apply not_true_is_false. rewrite isVulnerableAtOrBelow_spec.
  intros (a & r & Ha & Hr & _). rewrite (Hno a Ha) in Hr.
  by apply elem_of_nil in Hr.
Qed.

Lemma isVulnerableAtOrBelow_iff_witness :
  isVulnerableAtOrBelow
    {| id := "V"; summary := None; details := None; severity := None;
       affected := Some [ {| ranges := None |} ]; references := None |}
    "1.0.0" = false.
Proof.
  apply (proj2 (isVulnerableAtOrBelow_iff _ "1.0.0")).
  intros a Ha. simpl in Ha. apply list_elem_of_singleton in Ha as ->. reflexivity.
Defined.

(** C2, as stated, fails: at the [fixed] version itself the code answers
    true. *)
Lemma isVulnerableAtOrBelow_at_fixed :
  let v :=
    singleRange emptyFixedVuln
      [ {| introduced := Some "1.0.0"; fixed := None |};
        {| introduced := None; fixed := Some "2.0.0" |} ] in
  ~ (isVulnerableAtOrBelow v "1.5.0" = true /\
     isVulnerableAtOrBelow v "1.0.0" = true /\
     isVulnerableAtOrBelow v "2.0.0" = false /\
     isVulnerableAtOrBelow v "0.9.0" = false).
Proof. intros v (_ & _ & H & _). vm_compute in H. discriminate. Qed.

(** C2 (amended): with a single range introduced at 1.0.0 and fixed at
    2.0.0, whether the two bounds come as two events or as one, the code
    answers true at 1.5.0, at 1.0.0 and at 2.0.0, and false at 0.9.0. *)
Theorem isVulnerableAtOrBelow_example v evs :
  evs = [ {| introduced := Some "1.0.0"; fixed := None |};
          {| introduced := None; fixed := Some "2.0.0" |} ] \/
  evs = [ {| introduced := Some "1.0.0"; fixed := Some "2.0.0" |} ] ->
  isVulnerableAtOrBelow (singleRange v evs) "1.5.0" = true /\
  isVulnerableAtOrBelow (singleRange v evs) "1.0.0" = true /\
  isVulnerableAtOrBelow (singleRange v evs) "2.0.0" = true /\
  isVulnerableAtOrBelow (singleRange v evs) "0.9.0" = false.
Proof. intros [-> | ->]; repeat split; reflexivity. Qed.

Lemma isVulnerableAtOrBelow_example_witness :
  isVulnerableAtOrBelow
    (singleRange emptyFixedVuln [ {| introduced := Some "1.0.0"; fixed := Some "2.0.0" |} ])
    "2.0.0" = true.
Proof.
  exact (proj1 (proj2 (proj2
    (isVulnerableAtOrBelow_example emptyFixedVuln _ (or_intror eq_refl))))).
Defined.

End RangeMatcher.

(* ===================================================================== *)
(** ** The retrying fetcher                                               *)
(* ===================================================================== *)

Section Fetcher.

Import Osv.

Variable net : nat -> response.
Variable pkg : WorkItem.

Lemma tryQuery_outcome w :
  tryQuery net pkg w =
  (queryOutcome (net (length (sent w))),
   {| sent := sent w ++ [requestFor pkg]; slept := slept w |}).
Proof.
  unfold tryQuery, httpsPost, queryOutcome. simpl.
  by destruct (settle _) as [err|[|vs]].
Qed.

(** One unfolding of [osvRequest], by what the attempt's outcome is. *)
Lemma osvRequest_from_stop fuel attempt w :
  stops (queryOutcome (net (length (sent w)))) attempt = true ->
  osvRequest_from net (S fuel) pkg attempt w =
  Some (resultOf (queryOutcome (net (length (sent w)))),
        {| sent := sent w ++ [requestFor pkg]; slept := slept w |}).
Proof.
  intros H. cbn [osvRequest_from]. rewrite tryQuery_outcome.
  destruct (queryOutcome _) as [err|vulns]; simpl in *; [|done].
  by destruct (retryable err && (attempt <=? RETRY_LIMIT)).
Qed.

Lemma osvRequest_from_retry fuel attempt w :
  stops (queryOutcome (net (length (sent w)))) attempt = false ->
  osvRequest_from net (S fuel) pkg attempt w =
  osvRequest_from net fuel pkg (attempt + 1)
    {| sent := sent w ++ [requestFor pkg];
       slept := slept w ++ [INITIAL_DELAY * 2 ^ (attempt - 1)] |}.
Proof.
  intros H. cbn [osvRequest_from]. rewrite tryQuery_outcome.
  destruct (queryOutcome _) as [err|vulns]; simpl in *; [|done].
  by destruct (retryable err && (attempt <=? RETRY_LIMIT)).
Qed.

Lemma delaysFrom_S attempt k :
  delaysFrom attempt (S k) =
  INITIAL_DELAY * 2 ^ (attempt - 1) :: delaysFrom (attempt + 1) k.
Proof.
  unfold delaysFrom. simpl. rewrite Z.add_0_r. f_equal.
  rewrite <- seq_shift, <- list_fmap_compose. apply list_fmap_ext.
  intros _ j _. simpl. do 2 f_equal. lia.
Qed.

(** [k] attempts that ask for a retry, then one that stops. *)
Lemma osvRequest_from_schedule k fuel attempt w :
  (k < fuel)%nat ->
  (forall j, (j < k)%nat ->
     stops (queryOutcome (net (length (sent w) + j))) (attempt + Z.of_nat j) = false) ->
  stops (queryOutcome (net (length (sent w) + k))) (attempt + Z.of_nat k) = true ->
  osvRequest_from net fuel pkg attempt w =
  Some (resultOf (queryOutcome (net (length (sent w) + k))),
        {| sent := sent w ++ replicate (S k) (requestFor pkg);
           slept := slept w ++ delaysFrom attempt k |}).
Proof.
  revert fuel attempt w. induction k as [|k IH]; intros fuel attempt w Hf Hre Hst.
  - destruct fuel as [|fuel]; [lia|].
    change (Z.of_nat 0) with 0 in Hst. rewrite Z.add_0_r in Hst.
    rewrite Nat.add_0_r in Hst |- *.
    rewrite (osvRequest_from_stop _ _ _ Hst). simpl. by rewrite app_nil_r.
  - destruct fuel as [|fuel]; [lia|].
    pose proof (Hre 0%nat ltac:(lia)) as H0.
    change (Z.of_nat 0) with 0 in H0. rewrite Z.add_0_r, Nat.add_0_r in H0.
    rewrite (osvRequest_from_retry _ _ _ H0).
    rewrite (IH fuel (attempt + 1)); simpl.
    + rewrite length_app. simpl.
      replace (length (sent w) + 1 + k)%nat with (length (sent w) + S k)%nat by lia.
      rewrite delaysFrom_S, <- !app_assoc. reflexivity.
    + lia.
    + intros j Hj. rewrite length_app. simpl.
      replace (length (sent w) + 1 + j)%nat with (length (sent w) + S j)%nat by lia.
      replace (attempt + 1 + Z.of_nat j) with (attempt + Z.of_nat (S j)) by lia.
      apply Hre. lia.
    + rewrite length_app. simpl.
      replace (length (sent w) + 1 + k)%nat with (length (sent w) + S k)%nat by lia.
      replace (attempt + 1 + Z.of_nat k) with (attempt + Z.of_nat (S k)) by lia.
      exact Hst.
Qed.

(** Past the retry limit every outcome stops. *)
Lemma stops_past_limit o attempt : RETRY_LIMIT < attempt -> stops o attempt = true.
Proof.
  intros H. destruct o as [err|]; simpl; [|done].
  destruct (Z.leb_spec attempt RETRY_LIMIT); [lia|]. by rewrite andb_false_r.
Qed.

(** The recursion ends within the fuel [osvRequest] hands over. *)
Lemma osvRequest_from_total fuel attempt w :
  (0 < fuel)%nat ->
  RETRY_LIMIT + 1 - attempt < Z.of_nat fuel ->
  is_Some (osvRequest_from net fuel pkg attempt w).
Proof.
  revert attempt w. induction fuel as [|fuel IH]; intros attempt w H0 H; [lia|].
  destruct (stops (queryOutcome (net (length (sent w)))) attempt) eqn:E.
  - rewrite (osvRequest_from_stop _ _ _ E). eauto.
  - rewrite (osvRequest_from_retry _ _ _ E).
    destruct (Z.le_gt_cases attempt RETRY_LIMIT).
    + apply IH; lia.
    + rewrite stops_past_limit in E; [done|lia].
Qed.

Lemma settle_retryable statusCode body :
  statusCode = 429 \/ 500 <= statusCode ->
  settle (Reply statusCode body) = inl {| retryable := true |}.
Proof.
  intros H. simpl.
  destruct (Z.eqb_spec statusCode 429); [done|].
  destruct (Z.geb_spec statusCode 500); [done|lia].
Qed.

Lemma settle_permanent r :
  match r with
  | NetworkError => True
  | Reply statusCode body =>
      statusCode <> 429 /\ statusCode < 500 /\
      (statusCode < 200 \/ 300 <= statusCode \/ body = None)
  end ->
  settle r = inl {| retryable := false |}.
Proof.
  destruct r as [|statusCode body]; [done|]. intros (H1 & H2 & H3). simpl.
  destruct (Z.eqb_spec statusCode 429); [done|].
  destruct (Z.geb_spec statusCode 500); [lia|]. simpl.
  destruct (Z.ltb_spec statusCode 200); [done|].
  destruct (Z.geb_spec statusCode 300); [done|]. simpl.
  destruct H3 as [?|[?| ->]]; [lia|lia|done].
Qed.

Lemma stops_retryable attempt :
  attempt <= RETRY_LIMIT -> stops (inl {| retryable := true |}) attempt = false.
Proof. intros H. simpl. by destruct (Z.leb_spec attempt RETRY_LIMIT); [|lia]. Qed.

Lemma stops_otherwise o attempt :
  o <> inl {| retryable := true |} -> stops o attempt = true.
Proof. destruct o as [[[]]|]; simpl; congruence. Qed.

Lemma delaysFrom_table k :
  (k <= 5)%nat -> delaysFrom 1 k = take k [1000; 2000; 4000; 8000; 16000].
Proof.
  intros H. destruct k as [|[|[|[|[|[|k]]]]]]; try reflexivity. lia.
Qed.

(** [k <= 5] attempts that fail in a retryable way, then one that does
    not. *)
Lemma osvRequest_schedule k :
  (k <= 5)%nat ->
  (forall j, (j < k)%nat -> queryOutcome (net j) = inl {| retryable := true |}) ->
  queryOutcome (net k) <> inl {| retryable := true |} ->
  osvRequest net pkg =
  Some (resultOf (queryOutcome (net k)),
        {| sent := replicate (S k) (requestFor pkg);
           slept := take k [1000; 2000; 4000; 8000; 16000] |}).
Proof.
  intros Hk Hre Hst. unfold osvRequest.
  rewrite (osvRequest_from_schedule k); simpl.
  - by rewrite delaysFrom_table.
  - lia.
  - intros j Hj. rewrite (Hre j Hj). apply stops_retryable. unfold RETRY_LIMIT. lia.
  - by apply stops_otherwise.
Qed.

Lemma osvRequest_exhausted :
  (forall j, (j <= 5)%nat -> queryOutcome (net j) = inl {| retryable := true |}) ->
  osvRequest net pkg =
  Some ([], {| sent := replicate 6 (requestFor pkg);
               slept := [1000; 2000; 4000; 8000; 16000] |}).
Proof.
  intros Hre. unfold osvRequest.
  rewrite (osvRequest_from_schedule 5); simpl.
  - by rewrite (Hre 5%nat).
  - lia.
  - intros j Hj. rewrite (Hre j) by lia. apply stops_retryable. unfold RETRY_LIMIT. lia.
  - apply stops_past_limit. unfold RETRY_LIMIT. lia.
Qed.

End Fetcher.

(** C4: statuses 429 and 500 or more are retryable; after [k <= 5]
    retryable failures [osvRequest] has slept the first [k] of 1s, 2s, 4s,
    8s, 16s and made [k + 1] requests; four 500s then a 200 give the parsed
    vulnerabilities after exactly 5 requests; six retryable failures, or a
    permanent failure at any attempt, give the empty list; and the call
    always returns. *)
Theorem osvRequest_retry (net : nat -> Osv.response) (pkg : Osv.WorkItem) :
  (forall statusCode body,
      statusCode = 429 \/ 500 <= statusCode ->
      Osv.settle (Osv.Reply statusCode body) = inl {| Osv.retryable := true |}) /\
  (forall k,
      (k <= 5)%nat ->
      (forall j, (j < k)%nat ->
         Osv.queryOutcome (net j) = inl {| Osv.retryable := true |}) ->
      Osv.queryOutcome (net k) <> inl {| Osv.retryable := true |} ->
      Osv.osvRequest net pkg =
      Some (Osv.resultOf (Osv.queryOutcome (net k)),
            {| Osv.sent := replicate (S k) (Osv.requestFor pkg);
               Osv.slept := take k [1000; 2000; 4000; 8000; 16000] |})) /\
  (forall vs,
      (forall j, (j < 4)%nat -> exists body, net j = Osv.Reply 500 body) ->
      net 4%nat = Osv.Reply 200 (Some (Osv.PObj vs)) ->
      Osv.osvRequest net pkg =
      Some (Osv.or_default vs,
            {| Osv.sent := replicate 5 (Osv.requestFor pkg);
               Osv.slept := [1000; 2000; 4000; 8000] |})) /\
  ((forall j, (j <= 5)%nat ->
      Osv.queryOutcome (net j) = inl {| Osv.retryable := true |}) ->
   Osv.osvRequest net pkg =
   Some ([], {| Osv.sent := replicate 6 (Osv.requestFor pkg);
                Osv.slept := [1000; 2000; 4000; 8000; 16000] |})) /\
  (forall k,
      (k <= 5)%nat ->
      (forall j, (j < k)%nat ->
         Osv.queryOutcome (net j) = inl {| Osv.retryable := true |}) ->
      match net k with
      | Osv.NetworkError => True
      | Osv.Reply statusCode body =>
          statusCode <> 429 /\ statusCode < 500 /\
          (statusCode < 200 \/ 300 <= statusCode \/ body = None)
      end ->
      fst <$> Osv.osvRequest net pkg = Some []) /\
  is_Some (Osv.osvRequest net pkg).
Proof.
  split; [apply settle_retryable|].
  split; [apply osvRequest_schedule|].
  split.
  { intros vs H500 H200.
    rewrite (osvRequest_schedule net pkg 4).
    - unfold Osv.queryOutcome. rewrite H200. reflexivity.
    - lia.
    - intros j Hj. destruct (H500 j Hj) as [body ->]. reflexivity.
    - unfold Osv.queryOutcome. rewrite H200. discriminate. }
  split; [apply osvRequest_exhausted|].
  split.
  { intros k Hk Hre Hperm.
    assert (Osv.queryOutcome (net k) = inl {| Osv.retryable := false |}) as Ho.
    { unfold Osv.queryOutcome. by rewrite (settle_permanent _ Hperm). }
    rewrite (osvRequest_schedule net pkg k Hk Hre); rewrite Ho; [done|discriminate]. }
  apply osvRequest_from_total; unfold Osv.RETRY_LIMIT; simpl; lia.
Qed.

Lemma osvRequest_retry_witness :
  let pkg := {| Osv.component := "pkg:gem/rails"; Osv.forkPoint := "5.0.0" |} in
  Osv.osvRequest (Osv.fourFailures Design.emptyFixedVuln) pkg =
  Some ([Design.emptyFixedVuln],
        {| Osv.sent := replicate 5 (Osv.requestFor pkg);
           Osv.slept := [1000; 2000; 4000; 8000] |}).
Proof.
  intros pkg.
  apply (proj1 (proj2 (proj2
    (osvRequest_retry (Osv.fourFailures Design.emptyFixedVuln) pkg)))
    (Some [Design.emptyFixedVuln])).
  - intros j Hj. exists None.
    destruct j as [|[|[|[|j]]]]; [reflexivity..|lia].
  - reflexivity.
Defined.

(* ===================================================================== *)
(** ** The result aggregator                                              *)
(* ===================================================================== *)

Section Aggregator.

Import Osv Design.

(** *** Sets kept as arrays *)

Lemma set_add_elem s x y : y ∈ set_add s x <-> y ∈ s \/ y = x.
Proof.
  unfold set_add. destruct (decide (x ∈ s)) as [Hin|Hout].
  - split; [auto|]. by intros [?| ->].
  - rewrite elem_of_app, list_elem_of_singleton. tauto.
Qed.

Lemma set_add_NoDup s x : NoDup s -> NoDup (set_add s x).
Proof.
  intros H. unfold set_add. destruct (decide (x ∈ s)) as [Hin|Hout]; [done|].
  apply NoDup_app. split; [done|]. split; [|apply NoDup_singleton].
  intros y Hy ->%list_elem_of_singleton. done.
Qed.

Lemma fold_set_add_elem l s y : y ∈ fold_left set_add l s <-> y ∈ s \/ y ∈ l.
Proof.
  revert s. induction l as [|x l IH]; intros s; simpl.
  - rewrite elem_of_nil. tauto.
  - rewrite IH, set_add_elem, elem_of_cons. tauto.
Qed.

Lemma fold_set_add_NoDup l s : NoDup s -> NoDup (fold_left set_add l s).
Proof.
  revert s. induction l as [|x l IH]; intros s H; simpl; [done|].
  by apply IH, set_add_NoDup.
Qed.

Lemma new_Set_elem l y : y ∈ new_Set l <-> y ∈ l.
Proof. unfold new_Set. rewrite fold_set_add_elem, elem_of_nil. tauto. Qed.

Lemma new_Set_NoDup l : NoDup (new_Set l).
Proof. apply fold_set_add_NoDup, NoDup_nil_2. Qed.

Lemma new_Set_snoc l x : new_Set (l ++ [x]) = set_add (new_Set l) x.
Proof. unfold new_Set. by rewrite fold_left_app. Qed.

(** The array of a set lists each element once, in first-occurrence
    order. *)
Lemma fold_set_add_first (l s : list string) :
  fold_left set_add l s = (s ++ filter (fun y => y ∉ s) (firstOccurrences l))%list.
Proof.
  revert s. induction l as [|x l IH]; intros s; simpl.
  - by rewrite app_nil_r.
  - rewrite IH, filter_cons. unfold set_add.
    destruct (decide (x ∈ s)) as [Hin|Hout].
    + rewrite decide_False by tauto. f_equal.
      rewrite list_filter_filter. apply list_filter_iff.
      intros y. split; [|tauto]. intros Hy. split; [done|]. by intros ->.
    + rewrite decide_True by done. rewrite <- app_assoc. simpl. do 2 f_equal.
      rewrite list_filter_filter. apply list_filter_iff.
      intros y. rewrite elem_of_app, list_elem_of_singleton. tauto.
Qed.

Lemma filter_all {A} (P : A -> Prop) `{!forall x, Decision (P x)} (l : list A) :
  (forall x, P x) -> filter P l = l.
Proof.
  intros HP. induction l as [|x l IH]; [done|].
  by rewrite filter_cons_True, IH.
Qed.

Lemma new_Set_first l : new_Set l = firstOccurrences l.
Proof.
  unfold new_Set. rewrite fold_set_add_first. simpl.
  apply filter_all. intros y. apply not_elem_of_nil.
Qed.

(** *** extractFixes *)

Lemma extractFixes_NoDup v : NoDup (extractFixes v).
Proof.
  unfold extractFixes.
  assert (forall (A : Type) (f : list string -> A -> list string) (l : list A) s,
             (forall s x, NoDup s -> NoDup (f s x)) ->
             NoDup s -> NoDup (fold_left f l s)) as Hfold.
  { intros A f l. induction l as [|x l IH]; intros s Hf Hs; simpl; [done|].
    apply IH; [done|]. by apply Hf. }
  apply Hfold; [|apply NoDup_nil_2].
  intros s a Hs. apply Hfold; [|done].
  intros s' r Hs'. apply Hfold; [|done].
  intros s'' e Hs''. destruct (fixed e) as [f|]; [|done].
  destruct (JS.str_truthy f); [|done]. by apply set_add_NoDup.
Qed.

(** *** The record operation *)

Lemma recordOp_unfold m v pkg :
  recordOp m (v, pkg) = recordVuln pkg (extractFixes v) m v.
Proof. reflexivity. Qed.

Lemma recordOp_other m op i :
  id (fst op) <> i -> recordOp m op !! i = m !! i.
Proof.
  destruct op as [v pkg]. simpl. intros Hne. rewrite recordOp_unfold.
  unfold recordVuln. destruct (m !! id v); by rewrite lookup_insert_ne.
Qed.

Lemma recordOp_new m v pkg :
  m !! id v = None ->
  exists r, recordOp m (v, pkg) !! id v = Some r /\
            fixedVersions r = extractFixes v /\
            affectedComponents r = [component pkg].
Proof.
  intros H. rewrite recordOp_unfold. unfold recordVuln. rewrite H.
  rewrite lookup_insert_eq. eauto.
Qed.

Lemma recordOp_again m v pkg ex :
  m !! id v = Some ex ->
  exists r, recordOp m (v, pkg) !! id v = Some r /\
            fixedVersions r = new_Set (fixedVersions ex ++ extractFixes v) /\
            affectedComponents r = set_add (affectedComponents ex) (component pkg).
Proof.
  intros H. rewrite recordOp_unfold. unfold recordVuln. rewrite H.
  rewrite lookup_insert_eq. eexists. split; [done|]. split; [done|].
  simpl. unfold set_add. by destruct (decide _).
Qed.

Lemma recordAll_snoc ops op m : recordAll (ops ++ [op]) m = recordOp (recordAll ops m) op.
Proof. unfold recordAll. by rewrite fold_left_app. Qed.

Lemma reporting_snoc i ops op :
  reporting i (ops ++ [op]) =
  if decide (id (fst op) = i) then (reporting i ops ++ [op])%list else reporting i ops.
Proof.
  unfold reporting. rewrite filter_app, filter_cons, filter_nil.
  destruct (decide _); [done|]. by rewrite app_nil_r.
Qed.

Lemma recordAll_holds ops i : holds (reporting i ops) (recordAll ops ∅ !! i).
Proof.
  induction ops as [|op ops IH] using rev_ind; [done|].
  rewrite recordAll_snoc, reporting_snoc.
  destruct (decide (id (fst op) = i)) as [Hi|Hne]; [|by rewrite recordOp_other].
  destruct op as [v pkg]. simpl in Hi. subst i.
  destruct (reporting (id v) ops) as [|op0 mine] eqn:Emine; simpl in IH.
  - destruct (recordOp_new _ v pkg IH) as (r & -> & Hf & Hc). simpl.
    exists r. split; [done|]. rewrite Hf, Hc.
    split; [apply extractFixes_NoDup|]. split; [|done].
    intros x. split.
    + intros Hx. exists (v, pkg). by rewrite list_elem_of_singleton.
    + by intros (op & ->%list_elem_of_singleton & Hx).
  - destruct IH as (ex & Hex & Hnd & Hel & Hcomp).
    destruct (recordOp_again _ v pkg ex Hex) as (r & -> & Hf & Hc).
    change ((op0 :: mine) ++ [(v, pkg)])%list with (op0 :: (mine ++ [(v, pkg)]))%list.
    cbv beta iota. exists r. split; [done|]. rewrite Hf, Hc.
    split; [apply new_Set_NoDup|]. split.
    + intros x. rewrite new_Set_elem, elem_of_app, Hel.
      change (op0 :: (mine ++ [(v, pkg)]))%list with ((op0 :: mine) ++ [(v, pkg)])%list.
      split.
      * intros [(op & Hop & Hx)|Hx].
        -- exists op. rewrite elem_of_app. auto.
        -- exists (v, pkg). rewrite elem_of_app, list_elem_of_singleton. auto.
      * intros (op & [Hop| ->%list_elem_of_singleton]%elem_of_app & Hx); eauto.
    + rewrite Hcomp.
      change (op0 :: (mine ++ [(v, pkg)]))%list with ((op0 :: mine) ++ [(v, pkg)])%list.
      rewrite fmap_app. symmetry. exact (new_Set_snoc _ (component pkg)).
Qed.

Lemma recordAll_general ops i :
  reporting i ops <> [] ->
  exists r,
    recordAll ops ∅ !! i = Some r /\
    NoDup (fixedVersions r) /\
    (forall x, x ∈ fixedVersions r <->
               exists op, op ∈ reporting i ops /\ x ∈ extractFixes (fst op)) /\
    affectedComponents r =
      firstOccurrences ((fun op => component (snd op)) <$> reporting i ops) /\
    NoDup (affectedComponents r) /\
    (forall c, c ∈ affectedComponents r <->
               exists op, op ∈ reporting i ops /\ component (snd op) = c).
Proof.
  intros Hne. pose proof (recordAll_holds ops i) as H.
  destruct (reporting i ops) as [|op0 mine]; [done|].
  destruct H as (r & Hr & Hnd & Hel & Hc).
  exists r. rewrite <- new_Set_first, Hc.
  split; [done|]. split; [done|]. split; [done|]. split; [done|].
  split; [apply new_Set_NoDup|].
  intros c. rewrite new_Set_elem, list_elem_of_fmap. split.
  - intros (op & -> & Hop). by exists op.
  - intros (op & Hop & <-). by exists op.
Qed.

Lemma recordAll_two v1 v2 pkgA pkgB :
  id v2 = id v1 ->
  exists r,
    recordAll [(v1, pkgA); (v2, pkgB)] ∅ !! id v1 = Some r /\
    fixedVersions r = new_Set (extractFixes v1 ++ extractFixes v2) /\
    affectedComponents r = set_add [component pkgA] (component pkgB).
Proof.
  intros Hid. unfold recordAll. simpl.
  destruct (recordOp_new ∅ v1 pkgA (lookup_empty _)) as (r1 & Hr1 & Hf1 & Hc1).
  rewrite <- Hid in Hr1.
  destruct (recordOp_again _ v2 pkgB r1 Hr1) as (r & Hr & Hf & Hc).
  exists r. by rewrite <- Hid, Hf, Hc, Hf1, Hc1.
Qed.

End Aggregator.

(** C6: after any sequence of record operations, the record stored for an
    identifier that was reported has as [fixedVersions] the union, without
    duplicates, of the fixed versions reported for it, and as
    [affectedComponents] the reporting components, each once, in the order
    of their first report; V1 recorded with 2.0.0 for A then with 2.1.0 for
    B holds 2.0.0 and 2.1.0 and [A, B]; an identifier recorded twice for
    one component lists that component once. *)
Theorem recordAll_merges :
  (forall ops i,
      Osv.reporting i ops <> [] ->
      exists r,
        Osv.recordAll ops ∅ !! i = Some r /\
        NoDup (Osv.fixedVersions r) /\
        (forall x, x ∈ Osv.fixedVersions r <->
                   exists op, op ∈ Osv.reporting i ops /\ x ∈ Osv.extractFixes (fst op)) /\
        Osv.affectedComponents r =
          Design.firstOccurrences
            ((fun op => Osv.component (snd op)) <$> Osv.reporting i ops) /\
        NoDup (Osv.affectedComponents r) /\
        (forall c, c ∈ Osv.affectedComponents r <->
                   exists op, op ∈ Osv.reporting i ops /\ Osv.component (snd op) = c)) /\
  (forall v1 v2 pkgA pkgB,
      Osv.id v2 = Osv.id v1 ->
      Osv.extractFixes v1 = ["2.0.0"] ->
      Osv.extractFixes v2 = ["2.1.0"] ->
      Osv.component pkgA <> Osv.component pkgB ->
      exists r,
        Osv.recordAll [(v1, pkgA); (v2, pkgB)] ∅ !! Osv.id v1 = Some r /\
        Osv.fixedVersions r = ["2.0.0"; "2.1.0"] /\
        Osv.affectedComponents r = [Osv.component pkgA; Osv.component pkgB]) /\
  (forall v pkg,
      exists r,
        Osv.recordAll [(v, pkg); (v, pkg)] ∅ !! Osv.id v = Some r /\
        Osv.affectedComponents r = [Osv.component pkg]).
Proof.
  split; [apply recordAll_general|]. split.
  - intros v1 v2 pkgA pkgB Hid H1 H2 Hne.
    destruct (recordAll_two v1 v2 pkgA pkgB Hid) as (r & Hr & Hf & Hc).
    exists r. split; [done|]. rewrite Hf, Hc, H1, H2. split; [reflexivity|].
    unfold Osv.set_add. rewrite decide_False; [done|].
    rewrite list_elem_of_singleton. congruence.
  - intros v pkg.
    destruct (recordAll_two v v pkg pkg eq_refl) as (r & Hr & Hf & Hc).
    exists r. split; [done|]. rewrite Hc.
    unfold Osv.set_add. rewrite decide_True; [done|].
    by apply list_elem_of_singleton.
Qed.

Lemma recordAll_merges_witness :
  let pkgA := {| Osv.component := "A"; Osv.forkPoint := "1.0.0" |} in
  let pkgB := {| Osv.component := "B"; Osv.forkPoint := "1.0.0" |} in
  exists r,
    Osv.recordAll
      [(Design.fixedAt "V1" "2.0.0", pkgA); (Design.fixedAt "V1" "2.1.0", pkgB)] ∅
      !! "V1" = Some r /\
    Osv.fixedVersions r = ["2.0.0"; "2.1.0"] /\
    Osv.affectedComponents r = ["A"; "B"].
Proof.
  intros pkgA pkgB.
  apply (proj1 (proj2 recordAll_merges)
           (Design.fixedAt "V1" "2.0.0") (Design.fixedAt "V1" "2.1.0") pkgA pkgB).
  - reflexivity.
  - reflexivity.
  - reflexivity.
  - simpl. discriminate.
Defined.

(* ===================================================================== *)
(** ** The worker pool                                                    *)
(* ===================================================================== *)

Section Pool.

Import Osv.

(** *** Replacing the state of one lane *)

Lemma awaiting_cons l ls : awaiting (l :: ls) = (awaiting [l] ++ awaiting ls)%list.
Proof. unfold awaiting. simpl. by rewrite app_nil_r. Qed.

Lemma awaiting_insert (ls : list lane) i old new :
  ls !! i = Some old ->
  (awaiting [old] ++ awaiting (<[i := new]> ls) ≡ₚ awaiting [new] ++ awaiting ls)%list.
Proof.
  revert i. induction ls as [|l ls IH]; intros i H; [done|].
  destruct i as [|i]; simpl in H.
  - injection H as ->.
    change (<[0%nat := new]> (old :: ls)) with (new :: ls).
    rewrite (awaiting_cons new ls), (awaiting_cons old ls).
    apply Permutation_app_swap_app.
  - change (<[S i := new]> (l :: ls)) with (l :: <[i := new]> ls).
    rewrite (awaiting_cons l ls), (awaiting_cons l (<[i := new]> ls)).
    rewrite (Permutation_app_swap_app (awaiting [old])).
    rewrite (Permutation_app_swap_app (awaiting [new])).
    f_equiv. by apply IH.
Qed.

Lemma weight_insert (ls : list lane) i old new :
  ls !! i = Some old ->
  (sum_list (laneWeight <$> <[i := new]> ls) + laneWeight old =
   sum_list (laneWeight <$> ls) + laneWeight new)%nat.
Proof.
  revert i. induction ls as [|l ls IH]; intros i H; [done|].
  destruct i as [|i]; simpl in H.
  - injection H as ->. csimpl. lia.
  - csimpl. specialize (IH i H). lia.
Qed.

Lemma insert_Exited (ls : list lane) i new :
  new <> Exited -> Exited ∈ <[i := new]> ls -> Exited ∈ ls.
Proof.
  intros Hnew (j & Hj)%list_elem_of_lookup.
  destruct (decide (i = j)) as [->|Hne].
  - destruct (decide (j < length ls)%nat) as [Hlt|Hge].
    + rewrite list_lookup_insert_eq in Hj by done. congruence.
    + rewrite list_insert_ge in Hj by lia. apply list_elem_of_lookup. eauto.
  - rewrite list_lookup_insert_ne in Hj by done. apply list_elem_of_lookup. eauto.
Qed.

(** *** One step *)

Lemma step_drained s l s' : step s l s' -> drained s -> drained s'.
Proof.
  unfold drained. intros Hstep Hd. destruct Hstep as [s i pkg rest Hi Hq|s i Hi Hq|s i pkg net vulns w Hi Hq]; simpl.
  - intros Hex%insert_Exited; [|done]. rewrite (Hd Hex) in Hq. done.
  - done.
  - intros Hex%insert_Exited; [|done]. auto.
Qed.

Lemma step_lanes s l s' : step s l s' -> length (lanes s') = length (lanes s).
Proof. destruct 1; simpl; apply length_insert. Qed.

Lemma step_decreases s l s' : step s l s' -> (stepsLeft s' < stepsLeft s)%nat.
Proof.
  unfold stepsLeft.
  destruct 1 as [s i pkg rest Hi Hq|s i Hi Hq|s i pkg net vulns w Hi Hq]; simpl.
  - pose proof (weight_insert _ i _ (Awaiting pkg) Hi). rewrite Hq. simpl in *. lia.
  - pose proof (weight_insert _ i _ Exited Hi). simpl in *. lia.
  - pose proof (weight_insert _ i _ AtLoopHead Hi). simpl in *. lia.
Qed.

Lemma step_queue s l s' :
  step s l s' -> (dequeued [l] ++ queue s')%list = queue s.
Proof. destruct 1 as [s i pkg rest Hi Hq|s i Hi Hq|s i pkg net vulns w Hi Hq]; simpl; by rewrite ?Hq. Qed.

Lemma step_awaiting s l s' :
  step s l s' ->
  (finished [l] ++ awaiting (lanes s') ≡ₚ awaiting (lanes s) ++ dequeued [l])%list.
Proof.
  destruct 1 as [s i pkg rest Hi Hq|s i Hi Hq|s i pkg net vulns w Hi Hq]; simpl.
  - pose proof (awaiting_insert _ i _ (Awaiting pkg) Hi) as H.
    simpl in H. rewrite H. unfold awaiting at 1. simpl. apply Permutation_cons_append.
  - pose proof (awaiting_insert _ i _ Exited Hi) as H.
    simpl in H. rewrite H. by rewrite app_nil_r.
  - pose proof (awaiting_insert _ i _ AtLoopHead Hi) as H.
    unfold awaiting at 1 3 in H. simpl in H. by rewrite app_nil_r.
Qed.

(** Each lane that has not left can take a step. *)
Lemma step_progress s i l :
  lanes s !! i = Some l -> l <> Exited -> exists lab s', step s lab s'.
Proof.
  intros Hi Hl. destruct l as [|pkg|]; [| |done].
  - destruct (queue s) as [|pkg rest] eqn:Hq.
    + eexists _, _. by apply step_exit.
    + eexists _, _. by eapply step_dequeue.
  - destruct (osvRequest_from_total (fun _ => NetworkError) pkg
                (Z.to_nat RETRY_LIMIT + 1) 1 world0) as [[vulns w] Hr].
    { lia. } { unfold RETRY_LIMIT. simpl. lia. }
    eexists _, _. eapply step_finish; [exact Hi|exact Hr].
Qed.

(** *** Executions *)

Lemma dequeued_cons l tr : dequeued (l :: tr) = (dequeued [l] ++ dequeued tr)%list.
Proof. unfold dequeued. simpl. by rewrite app_nil_r. Qed.

Lemma finished_cons l tr : finished (l :: tr) = (finished [l] ++ finished tr)%list.
Proof. unfold finished. simpl. by rewrite app_nil_r. Qed.

Lemma exec_drained s tr s' : exec s tr s' -> drained s -> drained s'.
Proof. induction 1; eauto using step_drained. Qed.

Lemma exec_lanes s tr s' : exec s tr s' -> length (lanes s') = length (lanes s).
Proof.
  induction 1 as [|s l s' tr s'' Hstep _ IH]; [done|].
  by rewrite IH, (step_lanes _ _ _ Hstep).
Qed.

Lemma exec_bounded s tr s' : exec s tr s' -> (length tr + stepsLeft s' <= stepsLeft s)%nat.
Proof.
  induction 1 as [|s l s' tr s'' Hstep _ IH]; simpl; [lia|].
  pose proof (step_decreases _ _ _ Hstep). lia.
Qed.

(** The queue only loses its head, to the trace. *)
Lemma exec_queue s tr s' : exec s tr s' -> (dequeued tr ++ queue s')%list = queue s.
Proof.
  induction 1 as [|s l s' tr s'' Hstep _ IH]; [done|].
  rewrite dequeued_cons, <- app_assoc, IH. by apply step_queue.
Qed.

(** What was taken is finished or still awaited. *)
Lemma exec_awaiting s tr s' :
  exec s tr s' ->
  (finished tr ++ awaiting (lanes s') ≡ₚ awaiting (lanes s) ++ dequeued tr)%list.
Proof.
  induction 1 as [|s l s' tr s'' Hstep _ IH].
  - unfold finished, dequeued. simpl. by rewrite app_nil_r.
  - rewrite finished_cons, dequeued_cons, <- app_assoc, IH.
    rewrite !app_assoc. f_equiv. by apply step_awaiting.
Qed.

Lemma awaiting_none ls : Forall (fun l => l = Exited \/ l = AtLoopHead) ls -> awaiting ls = [].
Proof.
  induction 1 as [|l ls [-> | ->] _ IH]; [done|..]; by rewrite awaiting_cons, IH.
Qed.

Lemma start_drained packages n : drained (start packages n).
Proof.
  unfold drained. simpl. intros (i & Hi)%list_elem_of_lookup.
  apply lookup_replicate in Hi as [? _]. done.
Qed.

Lemma start_awaiting packages n : awaiting (lanes (start packages n)) = [].
Proof.
  apply awaiting_none. simpl. apply Forall_forall.
  intros l Hl%elem_of_replicate. tauto.
Qed.

Lemma completed_dec s : completed s \/ exists i l, lanes s !! i = Some l /\ l <> Exited.
Proof.
  unfold completed.
  destruct (decide (Forall (fun l => l = Exited) (lanes s))) as [H|H]; [by left|right].
  apply not_Forall_Exists in H; [|intros l; apply _].
  apply Exists_exists in H as (l & Hl & Hne).
  apply list_elem_of_lookup in Hl as [i Hi]. eauto.
Qed.

(** From every state the lanes can be run to completion. *)
Lemma run_to_completion m s :
  (stepsLeft s <= m)%nat -> exists tr s', exec s tr s' /\ completed s'.
Proof.
  revert s. induction m as [|m IH]; intros s Hm.
  - destruct (completed_dec s) as [Hc|(i & l & Hi & Hl)].
    + exists [], s. split; [constructor|done].
    + destruct (step_progress s i l Hi Hl) as (lab & s' & Hstep).
      pose proof (step_decreases _ _ _ Hstep). lia.
  - destruct (completed_dec s) as [Hc|(i & l & Hi & Hl)].
    + exists [], s. split; [constructor|done].
    + destruct (step_progress s i l Hi Hl) as (lab & s' & Hstep).
      pose proof (step_decreases _ _ _ Hstep).
      destruct (IH s') as (tr & s'' & Hex & Hc); [lia|].
      exists (lab :: tr), s''. split; [|done]. econstructor; eauto.
Qed.

Lemma completed_queue packages n tr s :
  (1 <= n)%nat -> exec (start packages n) tr s -> completed s -> queue s = [].
Proof.
  intros Hn Hex Hc.
  apply (exec_drained _ _ _ Hex (start_drained packages n)).
  pose proof (exec_lanes _ _ _ Hex) as Hlen. simpl in Hlen.
  rewrite length_replicate in Hlen.
  destruct (lanes s) as [|l ls] eqn:El; [simpl in Hlen; lia|].
  unfold completed in Hc. rewrite El in Hc.
  apply Forall_cons in Hc as [-> _]. apply list_elem_of_here.
Qed.

Lemma completed_awaiting s : completed s -> awaiting (lanes s) = [].
Proof.
  intros Hc. apply awaiting_none. eapply Forall_impl; [exact Hc|]. tauto.
Qed.

End Pool.

(** C5: with at least one lane, the lanes can be run to completion, every
    run ends within [3 * N + lanes] steps, at any moment of any run the
    items taken so far followed by the queue are the original queue (so no
    item is taken twice, by one lane or by two), and when all lanes have
    left every item has been taken and finished exactly once. *)
Theorem workers_process_each_item_once (packages : list Osv.WorkItem) (n : nat) :
  (1 <= n)%nat ->
  (exists tr s, Osv.exec (Osv.start packages n) tr s /\ Osv.completed s) /\
  (forall tr s,
      Osv.exec (Osv.start packages n) tr s ->
      (length tr <= 3 * length packages + n)%nat /\
      (Osv.dequeued tr ++ Osv.queue s)%list = packages) /\
  (forall tr s,
      Osv.exec (Osv.start packages n) tr s -> Osv.completed s ->
      Osv.dequeued tr = packages /\ Osv.finished tr ≡ₚ packages).
Proof.
  intros Hn. split; [|split].
  - apply (run_to_completion (Osv.stepsLeft (Osv.start packages n))). lia.
  - intros tr s Hex. split.
    + pose proof (exec_bounded _ _ _ Hex) as Hb.
      unfold Osv.stepsLeft at 2 in Hb. simpl in Hb.
      assert (sum_list (Osv.laneWeight <$> replicate n Osv.AtLoopHead) = n) as Hsum.
      { clear. induction n as [|n IH]; [done|]. csimpl. by rewrite IH. }
      rewrite Hsum in Hb. lia.
    + apply (exec_queue _ _ _ Hex).
  - intros tr s Hex Hc.
    pose proof (exec_queue _ _ _ Hex) as Hq. simpl in Hq.
    rewrite (completed_queue packages n tr s Hn Hex Hc), app_nil_r in Hq.
    split; [done|].
    pose proof (exec_awaiting _ _ _ Hex) as Ha.
    rewrite (completed_awaiting s Hc), start_awaiting, app_nil_r in Ha.
    simpl in Ha. by rewrite Ha, Hq.
Qed.

Lemma workers_process_each_item_once_witness :
  let a := {| Osv.component := "A"; Osv.forkPoint := "1.0.0" |} in
  let b := {| Osv.component := "B"; Osv.forkPoint := "2.0.0" |} in
  exists tr s,
    Osv.exec (Osv.main_start [a; b; a]) tr s /\ Osv.completed s.
Proof.
  intros a b.
  exact (proj1 (workers_process_each_item_once [a; b; a] Osv.CONCURRENCY
                  ltac:(unfold Osv.CONCURRENCY; lia))).
Defined.

(* ===================================================================== *)
(** ** The summary and the queries of a run                               *)
(* ===================================================================== *)

Section Summary.

Import Osv Design.

(** *** The per-component summary *)

Lemma handleVulns_keeps pkg vulns st c :
  is_Some (perPackageCounts st !! c) ->
  is_Some (perPackageCounts (handleVulns pkg vulns st) !! c).
Proof.
  intros H. unfold handleVulns. destruct vulns as [|v vulns]; [done|].
  destruct (fold_left _ _ _) as [m cnt]. simpl.
  destruct (decide (component pkg = c)) as [->|Hne].
  - rewrite lookup_insert_eq. eauto.
  - by rewrite lookup_insert_ne.
Qed.

Lemma handleVulns_sets pkg vulns st :
  vulns <> [] -> is_Some (perPackageCounts (handleVulns pkg vulns st) !! component pkg).
Proof.
  intros H. unfold handleVulns. destruct vulns as [|v vulns]; [done|].
  destruct (fold_left _ _ _) as [m cnt]. simpl.
  rewrite lookup_insert_eq. eauto.
Qed.

Lemma step_keeps s l s' c :
  step s l s' ->
  is_Some (perPackageCounts (shared s) !! c) ->
  is_Some (perPackageCounts (shared s') !! c).
Proof. destruct 1; simpl; [done..|]. apply handleVulns_keeps. Qed.

Lemma exec_keeps s tr s' c :
  exec s tr s' ->
  is_Some (perPackageCounts (shared s) !! c) ->
  is_Some (perPackageCounts (shared s') !! c).
Proof. induction 1; eauto using step_keeps. Qed.

Lemma exec_summary s tr s' i pkg net vulns w :
  exec s tr s' ->
  Finish i pkg net vulns w ∈ tr -> vulns <> [] ->
  is_Some (perPackageCounts (shared s') !! component pkg).
Proof.
  induction 1 as [|s l s' tr s'' Hstep Hex IH]; intros Hin Hne.
  - by apply elem_of_nil in Hin.
  - apply elem_of_cons in Hin as [Heq|Hin]; [subst l|by apply IH].
    apply (exec_keeps _ _ _ _ Hex).
    inversion Hstep; subst; simpl. by apply handleVulns_sets.
Qed.

(** *** The requests *)

Lemma osvRequest_from_sent net pkg fuel attempt w0 vulns w :
  osvRequest_from net fuel pkg attempt w0 = Some (vulns, w) ->
  exists k, sent w = (sent w0 ++ replicate (S k) (requestFor pkg))%list.
Proof.
  revert attempt w0. induction fuel as [|fuel IH]; intros attempt w0 H; [done|].
  destruct (stops (queryOutcome (net (length (sent w0)))) attempt) eqn:E.
  - rewrite (osvRequest_from_stop _ _ _ _ _ E) in H. injection H as _ <-.
    by exists 0%nat.
  - rewrite (osvRequest_from_retry _ _ _ _ _ E) in H.
    apply IH in H as [k Hk]. exists (S k). rewrite Hk. simpl.
    by rewrite <- app_assoc.
Qed.

Lemma osvRequest_sent net pkg vulns w :
  osvRequest net pkg = Some (vulns, w) ->
  sent w <> [] /\ Forall (fun req => req = requestFor pkg) (sent w).
Proof.
  intros [k Hk]%osvRequest_from_sent. rewrite Hk. simpl. split; [done|].
  constructor; [done|]. apply Forall_forall. by intros req [-> _]%elem_of_replicate.
Qed.

Lemma exec_finish s tr s' i pkg net vulns w :
  exec s tr s' -> Finish i pkg net vulns w ∈ tr ->
  osvRequest net pkg = Some (vulns, w).
Proof.
  induction 1 as [|s l s' tr s'' Hstep Hex IH]; intros Hin.
  - by apply elem_of_nil in Hin.
  - apply elem_of_cons in Hin as [Heq|Hin]; [subst l|by apply IH].
    by inversion Hstep; subst.
Qed.

Lemma finished_elem i pkg net vulns w tr :
  Finish i pkg net vulns w ∈ tr -> pkg ∈ finished tr.
Proof.
  intros H. unfold finished. apply list_elem_of_bind.
  eexists. split; [|exact H]. simpl. apply list_elem_of_here.
Qed.

Lemma requests_elem req tr :
  req ∈ requests tr ->
  exists i pkg net vulns w, Finish i pkg net vulns w ∈ tr /\ req ∈ sent w.
Proof.
  unfold requests. intros (l & Hreq & Hl)%list_elem_of_bind.
  destruct l as [| i pkg net vulns w |]; try by apply elem_of_nil in Hreq.
  eauto 10.
Qed.

Lemma finished_packages packages n tr s pkg :
  exec (start packages n) tr s -> pkg ∈ finished tr -> pkg ∈ packages.
Proof.
  intros Hex Hin.
  pose proof (exec_queue _ _ _ Hex) as Hq. simpl in Hq.
  pose proof (exec_awaiting _ _ _ Hex) as Ha.
  rewrite start_awaiting in Ha. simpl in Ha.
  rewrite <- Hq, elem_of_app. left. rewrite <- Ha, elem_of_app. by left.
Qed.

(** *** Two runs of [main] on a single package *)

Lemma single_run net vulns :
  osvRequest net pkgA = Some (vulns, oneRequest) ->
  exec (main_start [pkgA])
    [Dequeue 0 pkgA; Exit 1; Finish 0 pkgA net vulns oneRequest; Exit 0]
    {| queue := [];
       lanes := [Exited; Exited];
       shared := handleVulns pkgA vulns {| allVulns := ∅; perPackageCounts := ∅ |} |}.
Proof.
  intros Hreq.
  eapply exec_cons; [by eapply (step_dequeue _ 0)|]. simpl.
  eapply exec_cons; [by eapply (step_exit _ 1)|]. simpl.
  eapply exec_cons; [by eapply (step_finish _ 0 pkgA net vulns oneRequest)|]. simpl.
  eapply exec_cons; [by eapply (step_exit _ 0)|]. simpl.
  apply exec_nil.
Qed.

End Summary.

(** C8, as stated, fails: on the single package [pkgA], answered 200 with
    an empty list, the run completes, the query succeeded, and the summary
    has no entry for the component. *)
Lemma summary_misses_component_without_vulns : ~ Design.summaryCoversSuccessful.
Proof.
  intros H.
  assert (Osv.osvRequest Osv.noVulns Design.pkgA = Some ([], Design.oneRequest)) as Hreq
    by reflexivity.
  specialize (H [Design.pkgA] Osv.CONCURRENCY _ _ (single_run Osv.noVulns [] Hreq)).
  destruct (H ltac:(by repeat constructor) 0%nat Design.pkgA Osv.noVulns [] Design.oneRequest)
    as [cnt Hcnt].
  - apply list_elem_of_further, list_elem_of_further, list_elem_of_here.
  - by exists [].
  - simpl in Hcnt. by rewrite lookup_empty in Hcnt.
Qed.

(** C8 (amended): after a completed run, every component for which an
    item's query returned at least one vulnerability has an entry in
    [perPackageCounts], whatever happened to the other items; an item whose
    query returned none leaves the maps as they were. *)
Theorem summary_covers_components_with_vulns packages n tr s :
  Osv.exec (Osv.start packages n) tr s -> Osv.completed s ->
  (forall i pkg net vulns w,
      Osv.Finish i pkg net vulns w ∈ tr -> vulns <> [] ->
      is_Some (Osv.perPackageCounts (Osv.shared s) !! Osv.component pkg)) /\
  (forall pkg st, Osv.handleVulns pkg [] st = st).
Proof.
  intros Hex _. split; [|done].
  intros i pkg net vulns w Hin Hne. by apply (exec_summary _ _ _ _ _ _ _ _ Hex Hin).
Qed.

Lemma summary_covers_components_with_vulns_witness :
  is_Some
    (Osv.perPackageCounts
       (Osv.handleVulns Design.pkgA [Design.fixedAt "V1" "6.0.0"]
          {| Osv.allVulns := ∅; Osv.perPackageCounts := ∅ |})
     !! "pkg:gem/rails").
Proof.
  assert (Osv.osvRequest (Design.oneVuln (Design.fixedAt "V1" "6.0.0")) Design.pkgA =
          Some ([Design.fixedAt "V1" "6.0.0"], Design.oneRequest)) as Hreq by reflexivity.
  refine (proj1 (summary_covers_components_with_vulns [Design.pkgA] Osv.CONCURRENCY _ _
                   (single_run _ _ Hreq) _)
            0%nat Design.pkgA _ _ Design.oneRequest _ _).
  - by repeat constructor.
  - apply list_elem_of_further, list_elem_of_further, list_elem_of_here.
  - discriminate.
Defined.

(** C10: every request [osvRequest] writes for a work item goes to the
    query path with the body [{ package: { purl: pkg.component } }], the
    component as it stands; so does every request of a run, for some item
    of the queue; the registry names of [parsePurl] never enter: the item of
    [pkg:gem/rails], which [parsePurl] would file under RubyGems, is asked
    for as [pkg:gem/rails]. *)
Theorem queries_use_raw_component :
  (forall net pkg vulns w,
      Osv.osvRequest net pkg = Some (vulns, w) ->
      Osv.sent w <> [] /\
      Forall (fun req =>
                req = (Osv.OSV_PATH,
                       {| Osv.package := {| Osv.purl := Osv.component pkg |} |}))
             (Osv.sent w)) /\
  (forall packages n tr s req,
      Osv.exec (Osv.start packages n) tr s ->
      req ∈ Osv.requests tr ->
      exists pkg,
        pkg ∈ packages /\
        req = (Osv.OSV_PATH, {| Osv.package := {| Osv.purl := Osv.component pkg |} |})) /\
  (Osv.registry <$> Osv.parsePurl (Osv.component Design.pkgA) = Some "RubyGems" /\
   forall net vulns w,
     Osv.osvRequest net Design.pkgA = Some (vulns, w) ->
     Forall (fun req => Osv.purl (Osv.package (snd req)) = "pkg:gem/rails") (Osv.sent w)).
Proof.
  split; [apply osvRequest_sent|]. split.
  - intros packages n tr s req Hex Hreq.
    apply requests_elem in Hreq as (i & pkg & net & vulns & w & Hin & Hreq).
    exists pkg. split.
    + eapply finished_packages; [exact Hex|]. eapply finished_elem, Hin.
    + pose proof (exec_finish _ _ _ _ _ _ _ _ Hex Hin) as Hr.
      apply osvRequest_sent in Hr as [_ Hall].
      rewrite Forall_forall in Hall. by apply Hall.
  - split; [reflexivity|].
    intros net vulns w [_ Hall]%osvRequest_sent.
    eapply Forall_impl; [exact Hall|]. by intros req ->.
Qed.

Lemma queries_use_raw_component_witness :
  Forall (fun req => Osv.purl (Osv.package (snd req)) = "pkg:gem/rails")
         (Osv.sent Design.oneRequest).
Proof.
  apply (proj2 (proj2 (proj2 queries_use_raw_component)) Osv.noVulns [] Design.oneRequest).
  reflexivity.
Defined.

(* ===================================================================== *)
(** ** More on the version comparator and the range matcher               *)
(* ===================================================================== *)

Section Versions.

Import JS Osv Design.

Ltac num_cases :=
  repeat match goal with
         | x : jsnum |- _ => destruct x
         end;
  simpl in *; try congruence;
  repeat match goal with
         | H : context [(?p ?= ?q)%Q] |- _ => destruct (Qcompare_spec p q)
         | |- context [(?p ?= ?q)%Q] => destruct (Qcompare_spec p q)
         end;
  try congruence; try lra.

(** Numbers that are neither below nor above each other compare alike
    with any third one. *)
Lemma js_lt_compat x y z :
  clean x -> clean y -> clean z ->
  js_lt x y = false -> js_lt y x = false ->
  js_lt x z = js_lt y z /\ js_lt z x = js_lt z y.
Proof. unfold clean. split; num_cases. Qed.

Lemma loop_ext pa pa' pb pb' i n :
  (forall j, or_zero (pa !! j) = or_zero (pa' !! j)) ->
  (forall j, or_zero (pb !! j) = or_zero (pb' !! j)) ->
  compareSemver_loop pa pb i n = compareSemver_loop pa' pb' i n.
Proof.
  intros Ha Hb. revert i. induction n as [|n IH]; intros i; simpl; [done|].
  by rewrite Ha, Hb, IH.
Qed.

(** The comparison sees its arrays only through [x || 0]. *)
Lemma compareParts_ext pa pa' pb pb' :
  (forall j, or_zero (pa !! j) = or_zero (pa' !! j)) ->
  (forall j, or_zero (pb !! j) = or_zero (pb' !! j)) ->
  compareParts pa pb = compareParts pa' pb'.
Proof.
  intros Ha Hb.
  set (N := Nat.max (Nat.max (length pa) (length pb)) (Nat.max (length pa') (length pb'))).
  rewrite (compareParts_upto pa pb N), (compareParts_upto pa' pb' N) by lia.
  by apply loop_ext.
Qed.

Lemma or_zero_snoc_zero (pa : list jsnum) (j : nat) :
  or_zero ((pa ++ [JFin 0])%list !! j) = or_zero (pa !! j).
Proof.
  destruct (decide (j < length pa)%nat) as [Hlt|Hge].
  - by rewrite lookup_app_l.
  - rewrite lookup_app_r, (lookup_ge_None_2 pa) by lia.
    by destruct (j - length pa)%nat as [|k].
Qed.

Lemma split_dot_from_snoc cur s :
  split_dot_from cur (s ++ ".0")%string = (split_dot_from cur s ++ ["0"])%list.
Proof.
  revert cur. induction s as [|c s IH]; intros cur; simpl; [done|].
  destruct (Ascii.eqb c "."); by rewrite IH.
Qed.

Lemma parts_snoc a :
  Number <$> split_dot (a ++ ".0")%string =
  ((Number <$> split_dot a) ++ [JFin 0])%list.
Proof. unfold split_dot. by rewrite split_dot_from_snoc, fmap_app. Qed.

(** The loop answers 0 only when every position compares equal, and then
    both arrays compare alike with any third one. *)
Lemma loop_zero_congr pa pb pc i n :
  compareSemver_loop pa pb i n = 0 ->
  compareSemver_loop pa pc i n = compareSemver_loop pb pc i n.
Proof.
  revert i. induction n as [|n IH]; intros i; simpl; [done|].
  unfold js_gt.
  pose proof (or_zero_clean (pa !! i)) as Ca.
  pose proof (or_zero_clean (pb !! i)) as Cb.
  pose proof (or_zero_clean (pc !! i)) as Cc.
  set (a := or_zero (pa !! i)) in *.
  set (b := or_zero (pb !! i)) in *.
  set (c := or_zero (pc !! i)) in *.
  destruct (js_lt b a) eqn:Eba; [done|].
  destruct (js_lt a b) eqn:Eab; [done|].
  intros H. destruct (js_lt_compat a b c Ca Cb Cc Eab Eba) as [-> ->].
  by rewrite (IH _ H).
Qed.

Lemma compareSemver_zero_congr a b c :
  compareSemver a b = 0 -> compareSemver a c = compareSemver b c.
Proof.
  unfold compareSemver.
  set (pa := Number <$> split_dot a). set (pb := Number <$> split_dot b).
  set (pc := Number <$> split_dot c).
  set (N := Nat.max (length pa) (Nat.max (length pb) (length pc))).
  rewrite (compareParts_upto pa pb N), (compareParts_upto pa pc N),
    (compareParts_upto pb pc N) by lia.
  apply loop_zero_congr.
Qed.

Lemma rangeCovers_congr t t' r :
  compareSemver t t' = 0 -> rangeCovers t r = rangeCovers t' r.
Proof.
  intros H. unfold rangeCovers.
  destruct (scanEvents _) as [i0 f0].
  rewrite (compareSemver_zero_congr t t' _ H).
  destruct f0 as [f|]; [|done].
  by rewrite (compareSemver_zero_congr t t' f H).
Qed.

Lemma existsb_ext_in {A} (f g : A -> bool) l :
  (forall x, f x = g x) -> existsb f l = existsb g l.
Proof. intros H. induction l as [|x l IH]; simpl; [done|]. by rewrite H, IH. Qed.

End Versions.

(** X1: [compareSemver] answers -1, 0 or 1, whatever the two strings
    are. *)
Theorem compareSemver_three_values (a b : string) :
  Osv.compareSemver a b = -1 \/ Osv.compareSemver a b = 0 \/ Osv.compareSemver a b = 1.
Proof. apply compareSemver_range. Qed.

(** X2: a trailing [.0] on either side does not change the comparison. *)
Theorem compareSemver_trailing_zero (a b : string) :
  Osv.compareSemver (a ++ ".0")%string b = Osv.compareSemver a b /\
  Osv.compareSemver a (b ++ ".0")%string = Osv.compareSemver a b.
Proof.
  unfold Osv.compareSemver. rewrite !parts_snoc.
  split; apply compareParts_ext; intros j; by rewrite ?or_zero_snoc_zero.
Qed.

(** X3: a version all of whose segments convert to NaN or to zero (letters,
    empty segments, zeros) compares like ["0"] with every version. *)
Theorem compareSemver_non_numeric (a b : string) :
  Forall (fun seg => JS.num_truthy (JS.Number seg) = false) (JS.split_dot a) ->
  Osv.compareSemver a b = Osv.compareSemver "0" b.
Proof.
  intros H. apply compareParts_ext; [|done].
  intros j. rewrite list_lookup_fmap.
  destruct (JS.split_dot a !! j) as [seg|] eqn:E; simpl.
  - rewrite Forall_forall in H.
    rewrite (H seg) by (by eapply list_elem_of_lookup_2).
    by destruct j as [|[|j]].
  - by destruct j as [|[|j]].
Qed.

Lemma compareSemver_non_numeric_witness :
  Osv.compareSemver "beta..x" "0.0.1" = Osv.compareSemver "0" "0.0.1".
Proof.
  apply (compareSemver_non_numeric "beta..x" "0.0.1").
  repeat constructor.
Defined.

(** X4: two versions that compare equal are interchangeable: they compare
    alike with every third version, on either side. *)
Theorem compareSemver_equal_interchangeable (a b c : string) :
  Osv.compareSemver a b = 0 ->
  Osv.compareSemver a c = Osv.compareSemver b c /\
  Osv.compareSemver c a = Osv.compareSemver c b.
Proof.
  intros H. pose proof (compareSemver_zero_congr a b c H) as Hc.
  split; [done|]. by rewrite (compareSemver_antisym c a), (compareSemver_antisym c b), Hc.
Qed.

Lemma compareSemver_equal_interchangeable_witness :
  Osv.compareSemver "1.2" "1.10" = Osv.compareSemver "1.2.0" "1.10" /\
  Osv.compareSemver "1.10" "1.2" = Osv.compareSemver "1.10" "1.2.0".
Proof.
  apply (compareSemver_equal_interchangeable "1.2" "1.2.0" "1.10"). reflexivity.
Defined.

(** X5: two targets that compare equal get the same answer from
    [isVulnerableAtOrBelow] on every vulnerability. *)
Theorem isVulnerableAtOrBelow_equal_targets (v : Osv.vuln) (t t' : string) :
  Osv.compareSemver t t' = 0 ->
  Osv.isVulnerableAtOrBelow v t = Osv.isVulnerableAtOrBelow v t'.
Proof.
  intros H. unfold Osv.isVulnerableAtOrBelow.
  destruct (Osv.affected v) as [l|]; [|done].
  apply existsb_ext_in. intros a. apply existsb_ext_in. intros r.
  by apply rangeCovers_congr.
Qed.

Lemma isVulnerableAtOrBelow_equal_targets_witness :
  Osv.isVulnerableAtOrBelow (Design.fixedAt "V1" "2.0.0") "2.0" =
  Osv.isVulnerableAtOrBelow (Design.fixedAt "V1" "2.0.0") "2.0.0".
Proof.
  apply (isVulnerableAtOrBelow_equal_targets _ "2.0" "2.0.0"). reflexivity.
Defined.

(** X6: the versions one range covers form an interval: a target between
    two covered targets is covered; so a vulnerability with a single range
    that affects [t1] and [t3] affects every [t2] between them. *)
Theorem isVulnerableAtOrBelow_interval (v : Osv.vuln) (evs : list Osv.event)
    (t1 t2 t3 : string) :
  Osv.isVulnerableAtOrBelow (Design.singleRange v evs) t1 = true ->
  Osv.isVulnerableAtOrBelow (Design.singleRange v evs) t3 = true ->
  Osv.compareSemver t1 t2 <= 0 ->
  Osv.compareSemver t2 t3 <= 0 ->
  Osv.isVulnerableAtOrBelow (Design.singleRange v evs) t2 = true.
Proof.
  unfold Osv.isVulnerableAtOrBelow. simpl. rewrite !orb_false_r.
  rewrite !rangeCovers_spec. intros [Hlo _] [_ Hhi] H12 H23. split.
  - eapply compareParts_trans; [exact Hlo|exact H12].
  - intros f Hf Hne. eapply compareParts_trans; [exact H23|]. by apply Hhi.
Qed.

Lemma isVulnerableAtOrBelow_interval_witness :
  Osv.isVulnerableAtOrBelow
    (Design.singleRange Design.emptyFixedVuln
       [ {| Osv.introduced := Some "1.0.0"; Osv.fixed := Some "2.0.0" |} ])
    "1.5" = true.
Proof.
  apply (isVulnerableAtOrBelow_interval _ _ "1.0.0" "1.5" "2.0.0");
    [reflexivity|reflexivity|vm_compute; discriminate|vm_compute; discriminate].
Defined.

(* ===================================================================== *)
(** ** More on the retrying fetcher                                       *)
(* ===================================================================== *)

Section FetcherShape.

Import Osv.

Variable net : nat -> response.
Variable pkg : WorkItem.

Lemma stops_false_retryable o attempt :
  stops o attempt = false -> o = inl {| retryable := true |}.
Proof. destruct o as [[[]]|]; simpl; [|done..]. done. Qed.

(** The first attempt that stops, among the first [n + 1]. *)
Lemma first_stop (P : nat -> bool) n :
  (exists k, (k <= n)%nat /\ P k = true /\ forall j, (j < k)%nat -> P j = false) \/
  (forall j, (j <= n)%nat -> P j = false).
Proof.
  induction n as [|n [(k & Hk & Hp & Hlt)|Hall]].
  - destruct (P 0%nat) eqn:E.
    + left. exists 0%nat. split; [lia|]. split; [done|]. intros j Hj. lia.
    + right. intros j Hj. by replace j with 0%nat by lia.
  - left. exists k. split; [lia|done].
  - destruct (P (S n)) eqn:E.
    + left. exists (S n). split; [lia|]. split; [done|]. intros j Hj. apply Hall. lia.
    + right. intros j Hj. destruct (decide (j = S n)) as [->|Hne]; [done|].
      apply Hall. lia.
Qed.

Lemma table_total k :
  foldr Z.add 0 (take k [1000; 2000; 4000; 8000; 16000]) <= 31000.
Proof. destruct k as [|[|[|[|[|k]]]]]; simpl; rewrite ?take_nil; simpl; lia. Qed.

Lemma osvRequest_shape_aux :
  exists k,
    (k <= 5)%nat /\
    osvRequest net pkg =
      Some (resultOf (queryOutcome (net k)),
            {| sent := replicate (S k) (requestFor pkg);
               slept := take k [1000; 2000; 4000; 8000; 16000] |}) /\
    (forall j, (j < k)%nat -> queryOutcome (net j) = inl {| retryable := true |}) /\
    ((k < 5)%nat -> queryOutcome (net k) <> inl {| retryable := true |}).
Proof.
  destruct (first_stop (fun j => stops (queryOutcome (net j)) (1 + Z.of_nat j)) 5)
    as [(k & Hk & Hstop & Hbefore)|Hall].
  - exists k. split; [done|]. split; [|split].
    + unfold osvRequest. rewrite (osvRequest_from_schedule net pkg k); simpl.
      * by rewrite delaysFrom_table.
      * lia.
      * exact Hbefore.
      * exact Hstop.
    + intros j Hj. eapply stops_false_retryable, Hbefore, Hj.
    + intros Hlt Hre. rewrite Hre in Hstop. simpl in Hstop.
      destruct (Z.leb_spec (1 + Z.of_nat k) RETRY_LIMIT) as [|Hgt]; [done|].
      unfold RETRY_LIMIT in Hgt. lia.
  - specialize (Hall 5%nat ltac:(lia)). simpl in Hall.
    rewrite stops_past_limit in Hall; [done|]. unfold RETRY_LIMIT. lia.
Qed.

End FetcherShape.

(** How [httpsPost] settles a response, case by case. *)
Lemma settle_cases (r : Osv.response) :
  (Osv.settle r = inl {| Osv.retryable := true |} <->
   exists statusCode body,
     r = Osv.Reply statusCode body /\ (statusCode = 429 \/ 500 <= statusCode)) /\
  (forall p,
      Osv.settle r = inr p <->
      exists statusCode,
        r = Osv.Reply statusCode (Some p) /\ 200 <= statusCode < 300) /\
  (Osv.settle r = inl {| Osv.retryable := false |} <->
   r = Osv.NetworkError \/
   exists statusCode body,
     r = Osv.Reply statusCode body /\ statusCode <> 429 /\ statusCode < 500 /\
     (statusCode < 200 \/ 300 <= statusCode \/ body = None)).
Proof.
  destruct r as [|st body]; simpl.
  { split; [|split]; [|intros p|]; split; try done.
    - by intros (? & ? & ? & _).
    - by intros (? & ? & _).
    - auto. }
  assert (forall st' body', Osv.Reply st body = Osv.Reply st' body' -> st' = st /\ body' = body)
    as Hinj by (by intros ? ? [= -> ->]).
  destruct (Z.eqb_spec st 429) as [->|Hne]; simpl.
  { split; [|split]; [|intros p|]; split; try done.
    - eauto 6.
    - intros (? & [-> _]%Hinj & ?). lia.
    - intros [|(? & ? & [-> _]%Hinj & ? & _)]; done. }
  destruct (Z.geb_spec st 500) as [Hge|Hlt]; simpl.
  { split; [|split]; [|intros p|]; split; try done.
    - eauto 6.
    - intros (? & [-> _]%Hinj & ?). lia.
    - intros [|(? & ? & [-> _]%Hinj & _ & ? & _)]; [done|lia]. }
  destruct (Z.ltb_spec st 200) as [Hlo|Hlo]; simpl.
  { split; [|split]; [|intros p|]; split; try done.
    - intros (? & ? & [-> _]%Hinj & [?|?]); lia.
    - intros (? & [-> _]%Hinj & ?). lia.
    - intros _. right. exists st, body. split; [done|]. split; [done|]. split; [lia|]. lia. }
  destruct (Z.geb_spec st 300) as [Hhi|Hhi]; simpl.
  { split; [|split]; [|intros p|]; split; try done.
    - intros (? & ? & [-> _]%Hinj & [?|?]); lia.
    - intros (? & [-> _]%Hinj & ?). lia.
    - intros _. right. exists st, body. split; [done|]. split; [done|]. split; [lia|]. lia. }
  destruct body as [p0|].
  - split; [|split]; [|intros p|]; split; try done.
    + intros (? & ? & [-> _]%Hinj & [?|?]); lia.
    + intros [= <-]. exists st. split; [done|lia].
    + intros (? & [_ [= ->]]%Hinj & _). done.
    + intros [|(? & ? & [-> ->]%Hinj & _ & _ & [?|[?|?]])]; [done|lia|lia|done].
  - split; [|split]; [|intros p|]; split; try done.
    + intros (? & ? & [-> _]%Hinj & [?|?]); lia.
    + intros (? & [_ [=]]%Hinj & _).
    + intros _. right. exists st, None. split; [done|]. split; [done|]. split; [lia|]. auto.
Qed.

(** X7: [httpsPost] settles every response in exactly one of three ways:
    a retryable error exactly for status 429 or 500 and above, the parsed
    payload exactly for a status from 200 to 299 whose body parses, and an
    error that is not retryable in every other case. *)
Theorem settle_classification (r : Osv.response) :
  (Osv.settle r = inl {| Osv.retryable := true |} <->
   exists statusCode body,
     r = Osv.Reply statusCode body /\ (statusCode = 429 \/ 500 <= statusCode)) /\
  (forall p,
      Osv.settle r = inr p <->
      exists statusCode,
        r = Osv.Reply statusCode (Some p) /\ 200 <= statusCode < 300) /\
  (Osv.settle r = inl {| Osv.retryable := false |} <->
   r = Osv.NetworkError \/
   exists statusCode body,
     r = Osv.Reply statusCode body /\ statusCode <> 429 /\ statusCode < 500 /\
     (statusCode < 200 \/ 300 <= statusCode \/ body = None)).
Proof. apply settle_cases. Qed.

(** X8: whatever the server does, [osvRequest] makes [k + 1] requests for
    some [k <= 5], all with the same path and body, sleeps exactly the first
    [k] delays of 1s, 2s, 4s, 8s, 16s (31 seconds at most in total), the
    first [k] responses were retryable failures, and the result is what the
    last response gives: its vulnerabilities, or nothing if it failed. *)
Theorem osvRequest_shape (net : nat -> Osv.response) (pkg : Osv.WorkItem) :
  exists k vulns w,
    (k <= 5)%nat /\
    Osv.osvRequest net pkg = Some (vulns, w) /\
    Osv.sent w = replicate (S k) (Osv.requestFor pkg) /\
    Osv.slept w = take k [1000; 2000; 4000; 8000; 16000] /\
    foldr Z.add 0 (Osv.slept w) <= 31000 /\
    vulns = Osv.resultOf (Osv.queryOutcome (net k)) /\
    (forall j, (j < k)%nat ->
       Osv.queryOutcome (net j) = inl {| Osv.retryable := true |}).
Proof.
  destruct (osvRequest_shape_aux net pkg) as (k & Hk & Hreq & Hbefore & _).
  eexists k, _, _. split; [done|]. split; [exact Hreq|]. simpl.
  split; [done|]. split; [done|]. split; [apply table_total|]. done.
Qed.

(** X9: a vulnerability list that is not empty is never made up: the last
    request of the call was answered with a status from 200 to 299 and a
    payload whose [vulns] is that very list. *)
Theorem osvRequest_result_from_server
    (net : nat -> Osv.response) (pkg : Osv.WorkItem) (vulns : list Osv.vuln) (w : Osv.world) :
  Osv.osvRequest net pkg = Some (vulns, w) ->
  vulns <> [] ->
  exists statusCode,
    net (pred (length (Osv.sent w))) =
      Osv.Reply statusCode (Some (Osv.PObj (Some vulns))) /\
    200 <= statusCode < 300.
Proof.
  intros Hreq Hne.
  destruct (osvRequest_shape_aux net pkg) as (k & Hk & Hreq' & _).
  rewrite Hreq' in Hreq. injection Hreq as Hv Hw. subst w. simpl.
  rewrite length_replicate. simpl.
  unfold Osv.queryOutcome in Hv.
  destruct (Osv.settle (net k)) as [err|[|vs]] eqn:E; simpl in Hv; [congruence..|].
  destruct vs as [vs|]; simpl in Hv; [|congruence]. subst vs.
  apply (proj1 (proj2 (settle_cases (net k)))) in E as (st & Hnet & Hst).
  by exists st.
Qed.

Lemma osvRequest_result_from_server_witness :
  exists statusCode,
    Design.oneVuln (Design.fixedAt "V1" "6.0.0") (pred (length (Osv.sent Design.oneRequest))) =
      Osv.Reply statusCode (Some (Osv.PObj (Some [Design.fixedAt "V1" "6.0.0"]))) /\
    200 <= statusCode < 300.
Proof.
  apply (osvRequest_result_from_server
           (Design.oneVuln (Design.fixedAt "V1" "6.0.0")) Design.pkgA
           [Design.fixedAt "V1" "6.0.0"] Design.oneRequest).
  - reflexivity.
  - discriminate.
Defined.

(* ===================================================================== *)
(** ** More on the worker's aggregation                                   *)
(* ===================================================================== *)

Section WorkerMore.

Import Osv Design.

(** *** extractFixes, element by element *)

Lemma fold_left_elem {A} (f : list string -> A -> list string)
    (P : A -> string -> Prop) (l : list A) (s : list string) (y : string) :
  (forall s x y, y ∈ f s x <-> y ∈ s \/ P x y) ->
  y ∈ fold_left f l s <-> y ∈ s \/ exists x, x ∈ l /\ P x y.
Proof.
  intros Hf. revert s. induction l as [|x l IH]; intros s; simpl.
  - split; [auto|]. intros [?|(x & Hx & _)]; [done|]. by apply elem_of_nil in Hx.
  - rewrite IH, Hf. split.
    + intros [[?|?]|(x' & Hx' & ?)]; [auto|right..].
      * exists x. split; [apply list_elem_of_here|done].
      * exists x'. split; [by apply list_elem_of_further|done].
    + intros [?|(x' & Hx' & ?)]; [auto|].
      apply elem_of_cons in Hx' as [->|Hx']; [auto|]. right. eauto.
Qed.

Lemma extractFixes_elem v y :
  y ∈ extractFixes v <->
  exists a r e,
    a ∈ or_default (affected v) /\ r ∈ or_default (ranges a) /\
    e ∈ or_default (events r) /\ fixed e = Some y /\ y <> "".
Proof.
  unfold extractFixes.
  rewrite (fold_left_elem _
    (fun a y => exists r e, r ∈ or_default (ranges a) /\
                            e ∈ or_default (events r) /\ fixed e = Some y /\ y <> "")).
  { rewrite elem_of_nil. split.
    - intros [[]|(a & Ha & r & e & H)]. by exists a, r, e.
    - intros (a & r & e & Ha & H). right. exists a. split; [done|]. by exists r, e. }
  clear. intros s a y.
  rewrite (fold_left_elem _
    (fun r y => exists e, e ∈ or_default (events r) /\ fixed e = Some y /\ y <> "")).
  { split.
    - intros [?|(r & Hr & e & H)]; [auto|]. right. by exists r, e.
    - intros [?|(r & e & Hr & H)]; [auto|]. right. exists r. split; [done|]. by exists e. }
  clear. intros s r y.
  rewrite (fold_left_elem _ (fun e y => fixed e = Some y /\ y <> "")); [done|].
  clear. intros s e y.
  destruct (fixed e) as [f|]; [|split; [auto|by intros [?|[? _]]]].
  destruct (JS.str_truthy f) eqn:E.
  - rewrite set_add_elem. apply str_truthy_spec in E. split.
    + intros [?| ->]; auto.
    + intros [?|[[= ->] _]]; auto.
  - split; [auto|]. intros [?|[[= ->] Hne]]; [done|].
    apply str_truthy_spec in Hne. congruence.
Qed.

(** *** One answer, aggregated *)

Lemma fold_visitVuln pkg l m cnt :
  fold_left (visitVuln pkg) l (m, cnt) =
  (recordAll ((fun v => (v, pkg)) <$> l) m, (cnt + remediated l)%nat).
Proof.
  revert m cnt. induction l as [|v l IH]; intros m cnt.
  - simpl. f_equal. unfold remediated. simpl. lia.
  - cbn [fold_left]. unfold visitVuln at 2. rewrite IH. f_equal.
    unfold remediated. simpl.
    destruct (0 <? length (extractFixes v))%nat; simpl; lia.
Qed.

Lemma handleVulns_unfold pkg v vulns st :
  handleVulns pkg (v :: vulns) st =
  {| allVulns := recordAll ((fun v => (v, pkg)) <$> relevantTo pkg (v :: vulns)) (allVulns st);
     perPackageCounts :=
       <[component pkg := remediated (relevantTo pkg (v :: vulns))]> (perPackageCounts st) |}.
Proof.
  unfold handleVulns. fold (relevantTo pkg (v :: vulns)).
  by rewrite fold_visitVuln.
Qed.

Lemma handleVulns_allVulns pkg vulns st :
  allVulns (handleVulns pkg vulns st) =
  recordAll ((fun v => (v, pkg)) <$> relevantTo pkg vulns) (allVulns st).
Proof.
  destruct vulns as [|v vulns]; [done|]. by rewrite handleVulns_unfold.
Qed.

(** *** Which identifiers a sequence of operations leaves in the map *)

Lemma recordOp_same m v pkg : is_Some (recordOp m (v, pkg) !! id v).
Proof.
  destruct (m !! id v) as [ex|] eqn:E.
  - destruct (recordOp_again m v pkg ex E) as (r & -> & _). eauto.
  - destruct (recordOp_new m v pkg E) as (r & -> & _). eauto.
Qed.

Lemma recordAll_keys ops m i :
  is_Some (recordAll ops m !! i) <->
  is_Some (m !! i) \/ exists op, op ∈ ops /\ id (fst op) = i.
Proof.
  revert m. induction ops as [|[v pkg] ops IH]; intros m.
  - simpl. split; [auto|]. intros [?|(op & Hop & _)]; [done|]. by apply elem_of_nil in Hop.
  - change (recordAll ((v, pkg) :: ops) m) with (recordAll ops (recordOp m (v, pkg))).
    rewrite IH. destruct (decide (id v = i)) as [<-|Hne].
    + split; intros _.
      * right. exists (v, pkg). split; [apply list_elem_of_here|done].
      * left. apply recordOp_same.
    + rewrite (recordOp_other m (v, pkg) i Hne). split.
      * intros [?|(op & Hop & Hi)]; [auto|]. right. exists op.
        split; [by apply list_elem_of_further|done].
      * intros [?|(op & Hop & Hi)]; [auto|].
        apply elem_of_cons in Hop as [->|Hop]; [done|]. right. eauto.
Qed.

Lemma relevantTo_elem pkg vulns v :
  v ∈ relevantTo pkg vulns <->
  v ∈ vulns /\ isVulnerableAtOrBelow v (forkPoint pkg) = true.
Proof.
  unfold relevantTo. rewrite !list_elem_of_In, filter_In. tauto.
Qed.

(** *** Records only grow *)

Lemma extends_refl r : extends r r.
Proof. unfold extends. by repeat split. Qed.

Lemma extends_trans r1 r2 r3 : extends r1 r2 -> extends r2 r3 -> extends r1 r3.
Proof.
  unfold extends.
  intros (A1 & A2 & A3 & A4 & A5 & A6 & A7 & A8) (B1 & B2 & B3 & B4 & B5 & B6 & B7 & B8).
  repeat split; try congruence.
  - by etrans.
  - auto.
Qed.

Lemma recordOp_extends m op i r :
  m !! i = Some r -> exists r', recordOp m op !! i = Some r' /\ extends r r'.
Proof.
  intros Hr. destruct op as [v pkg].
  destruct (decide (id v = i)) as [<-|Hne].
  - rewrite recordOp_unfold. unfold recordVuln. rewrite Hr, lookup_insert_eq.
    eexists. split; [done|]. unfold extends. simpl. repeat split.
    + destruct (decide _); [done|]. by apply prefix_app_r.
    + intros x Hx. rewrite new_Set_elem, elem_of_app. auto.
  - rewrite (recordOp_other m (v, pkg) i Hne). exists r. split; [done|apply extends_refl].
Qed.

Lemma recordAll_extends ops m i r :
  m !! i = Some r -> exists r', recordAll ops m !! i = Some r' /\ extends r r'.
Proof.
  revert m r. induction ops as [|op ops IH]; intros m r Hr.
  - exists r. split; [done|apply extends_refl].
  - destruct (recordOp_extends m op i r Hr) as (r1 & Hr1 & He1).
    destruct (IH _ _ Hr1) as (r2 & Hr2 & He2).
    exists r2. split; [done|]. by eapply extends_trans.
Qed.

Lemma step_extends s l s' i r :
  step s l s' ->
  allVulns (shared s) !! i = Some r ->
  exists r', allVulns (shared s') !! i = Some r' /\ extends r r'.
Proof.
  destruct 1; simpl; intros Hr; try (exists r; split; [done|apply extends_refl]).
  rewrite handleVulns_allVulns. by apply recordAll_extends.
Qed.

Lemma exec_extends s tr s' i r :
  exec s tr s' ->
  allVulns (shared s) !! i = Some r ->
  exists r', allVulns (shared s') !! i = Some r' /\ extends r r'.
Proof.
  intros Hex. revert r. induction Hex as [|s l s' tr s'' Hstep _ IH]; intros r Hr.
  - exists r. split; [done|apply extends_refl].
  - destruct (step_extends _ _ _ _ _ Hstep Hr) as (r1 & Hr1 & He1).
    destruct (IH _ Hr1) as (r2 & Hr2 & He2).
    exists r2. split; [done|]. by eapply extends_trans.
Qed.

End WorkerMore.

(* ===================================================================== *)
(** ** More on the runs of the worker lanes                               *)
(* ===================================================================== *)

Section RunMore.

Import Osv Design.

(** *** Well-formed records *)

Lemma recordOp_ok comps m v pkg :
  recordsOk comps m -> component pkg ∈ comps -> recordsOk comps (recordOp m (v, pkg)).
Proof.
  intros Hm Hc i r Hr. destruct (decide (id v = i)) as [<-|Hne].
  - rewrite recordOp_unfold in Hr. unfold recordVuln in Hr.
    destruct (m !! id v) as [ex|] eqn:E; rewrite lookup_insert_eq in Hr;
      injection Hr as <-; unfold recordOk; simpl.
    + destruct (Hm _ _ E) as (H1 & H2 & H3 & H4 & H5 & H6).
      split; [done|]. split; [apply new_Set_NoDup|]. split.
      { rewrite new_Set_elem, elem_of_app. intros [?|Hx]; [done|].
        apply extractFixes_elem in Hx as (? & ? & ? & _ & _ & _ & _ & ?). done. }
      destruct (decide (component pkg ∈ affectedComponents ex)) as [Hin|Hout].
      * done.
      * split; [|split].
        -- apply NoDup_app. split; [done|]. split; [|apply NoDup_singleton].
           by intros y Hy ->%list_elem_of_singleton.
        -- by destruct (affectedComponents ex).
        -- intros c [?| ->%list_elem_of_singleton]%elem_of_app; auto.
    + split; [done|]. split; [apply extractFixes_NoDup|]. split.
      { intros Hx. apply extractFixes_elem in Hx as (? & ? & ? & _ & _ & _ & _ & ?). done. }
      split; [apply NoDup_singleton|]. split; [done|].
      by intros c ->%list_elem_of_singleton.
  - rewrite (recordOp_other m (v, pkg) i Hne) in Hr. by apply Hm.
Qed.

Lemma recordAll_ok comps pkg l m :
  recordsOk comps m -> component pkg ∈ comps ->
  recordsOk comps (recordAll ((fun v => (v, pkg)) <$> l) m).
Proof.
  intros Hm Hc. revert m Hm. induction l as [|v l IH]; intros m Hm; [done|].
  apply IH. by apply recordOp_ok.
Qed.

Lemma awaiting_lookup (ls : list lane) i pkg :
  ls !! i = Some (Awaiting pkg) -> pkg ∈ awaiting ls.
Proof.
  intros H. unfold awaiting. apply list_elem_of_bind.
  exists (Awaiting pkg). split; [apply list_elem_of_here|by eapply list_elem_of_lookup_2].
Qed.

Lemma awaiting_insert_elem (ls : list lane) i old new y :
  ls !! i = Some old ->
  y ∈ awaiting (<[i := new]> ls) -> y ∈ awaiting [new] \/ y ∈ awaiting ls.
Proof.
  intros Hi Hy. apply elem_of_app. rewrite <- (awaiting_insert ls i old new Hi).
  apply elem_of_app. by right.
Qed.

Lemma step_runOk packages s l s' : step s l s' -> runOk packages s -> runOk packages s'.
Proof.
  intros Hstep [Hitems Hrec].
  destruct Hstep as [s i pkg rest Hi Hq|s i Hi Hq|s i pkg net vulns w Hi Hq];
    split; simpl; try done.
  - intros p [Hp|Hp].
    + apply Hitems. left. rewrite Hq. by apply list_elem_of_further.
    + apply (awaiting_insert_elem _ _ _ _ _ Hi) in Hp as [Hp|Hp].
      * apply Hitems. left. rewrite Hq.
        unfold awaiting in Hp. simpl in Hp. apply list_elem_of_singleton in Hp as ->.
        apply list_elem_of_here.
      * apply Hitems. by right.
  - intros p [Hp|Hp]; [apply Hitems; by left|].
    apply (awaiting_insert_elem _ _ _ _ _ Hi) in Hp as [Hp|Hp].
    + by apply elem_of_nil in Hp.
    + apply Hitems. by right.
  - intros p [Hp|Hp]; [apply Hitems; by left|].
    apply (awaiting_insert_elem _ _ _ _ _ Hi) in Hp as [Hp|Hp].
    + by apply elem_of_nil in Hp.
    + apply Hitems. by right.
  - rewrite handleVulns_allVulns. apply recordAll_ok; [done|].
    apply list_elem_of_fmap. exists pkg. split; [done|].
    apply Hitems. right. by eapply awaiting_lookup.
Qed.

Lemma exec_runOk packages s tr s' : exec s tr s' -> runOk packages s -> runOk packages s'.
Proof. induction 1; eauto using step_runOk. Qed.

Lemma start_runOk packages n : runOk packages (start packages n).
Proof.
  split; simpl.
  - intros pkg [?|Hp]; [done|].
    pose proof (start_awaiting packages n) as H. simpl in H. rewrite H in Hp.
    by apply elem_of_nil in Hp.
  - intros i r Hr. by rewrite lookup_empty in Hr.
Qed.

(** *** Lanes and requests *)


Lemma requests_cons l tr :
  requests (l :: tr) =
  (match l with Finish _ _ _ _ w => sent w | _ => [] end ++ requests tr)%list.
Proof. reflexivity. Qed.

Lemma osvRequest_sent_length net pkg vulns w :
  osvRequest net pkg = Some (vulns, w) -> (1 <= length (sent w) <= 6)%nat.
Proof.
  intros H. destruct (osvRequest_shape_aux net pkg) as (k & Hk & H' & _).
  rewrite H' in H. injection H as _ <-. simpl. rewrite length_replicate. lia.
Qed.

Lemma exec_requests_bounds s tr s' :
  exec s tr s' ->
  (length (finished tr) <= length (requests tr) <= 6 * length (finished tr))%nat.
Proof.
  induction 1 as [|s l s' tr s'' Hstep _ IH]; [simpl; lia|].
  rewrite finished_cons, requests_cons, !length_app.
  destruct Hstep as [s i pkg rest Hi Hq|s i Hi Hq|s i pkg net vulns w Hi Hq];
    unfold finished at 1 3; simpl; try lia.
  pose proof (osvRequest_sent_length _ _ _ _ Hq). lia.
Qed.

Lemma finished_label pkg tr :
  pkg ∈ finished tr -> exists i net vulns w, Finish i pkg net vulns w ∈ tr.
Proof.
  unfold finished. intros (l & Hp & Hl)%list_elem_of_bind.
  destruct l as [| i p net vulns w |]; try by apply elem_of_nil in Hp.
  apply list_elem_of_singleton in Hp as ->. eauto.
Qed.

Lemma exec_no_finish s tr s' :
  exec s tr s' -> finished tr = [] -> shared s' = shared s /\ requests tr = [].
Proof.
  induction 1 as [|s l s' tr s'' Hstep _ IH]; [done|].
  rewrite finished_cons, requests_cons. intros [Hl Htr]%app_eq_nil.
  destruct (IH Htr) as [-> ->].
  destruct Hstep; simpl in *; done.
Qed.

Lemma exec_no_lanes packages tr s : exec (start packages 0) tr s -> tr = [].
Proof.
  inversion 1 as [|? l ? ? ? Hstep]; [done|]. subst.
  inversion Hstep; subst; simpl in *; done.
Qed.

End RunMore.

(** X10: [extractFixes] lists, without duplicates, exactly the values of
    the [fixed] events of all ranges of all affected entries that are not
    the empty string. *)
Theorem extractFixes_exact (v : Osv.vuln) :
  NoDup (Osv.extractFixes v) /\
  forall y,
    y ∈ Osv.extractFixes v <->
    exists a r e,
      a ∈ Osv.or_default (Osv.affected v) /\ r ∈ Osv.or_default (Osv.ranges a) /\
      e ∈ Osv.or_default (Osv.events r) /\ Osv.fixed e = Some y /\ y <> "".
Proof. split; [apply extractFixes_NoDup|apply extractFixes_elem]. Qed.

(** X11: when the answer for an item is not empty, the worker sets the
    item's component in [perPackageCounts] to the number of vulnerabilities
    that affect the fork point and have a fixed version, replacing any
    earlier count, and leaves the counts of the other components alone. *)
Theorem handleVulns_counts (pkg : Osv.WorkItem) (vulns : list Osv.vuln)
    (st : Osv.store) (c : string) :
  vulns <> [] ->
  Osv.perPackageCounts (Osv.handleVulns pkg vulns st) !! c =
  if decide (c = Osv.component pkg)
  then Some (Osv.remediated (Osv.relevantTo pkg vulns))
  else Osv.perPackageCounts st !! c.
Proof.
  intros Hne. destruct vulns as [|v vulns]; [done|].
  rewrite handleVulns_unfold. simpl.
  destruct (decide (c = Osv.component pkg)) as [->|Hc].
  - by rewrite lookup_insert_eq.
  - by rewrite lookup_insert_ne.
Qed.

Lemma handleVulns_counts_witness :
  Osv.perPackageCounts
    (Osv.handleVulns Design.pkgA [Design.fixedAt "V1" "6.0.0"]
       {| Osv.allVulns := ∅; Osv.perPackageCounts := ∅ |}) !! "pkg:gem/rails" =
  Some 1%nat.
Proof.
  exact (handleVulns_counts Design.pkgA [Design.fixedAt "V1" "6.0.0"]
           {| Osv.allVulns := ∅; Osv.perPackageCounts := ∅ |} "pkg:gem/rails"
           ltac:(discriminate)).
Defined.

(** X12: after the worker has handled an answer, an identifier is in
    [allVulns] exactly when it was there before or the answer holds a
    vulnerability with that identifier that affects the item's fork point:
    a vulnerability that does not affect the fork point is never added. *)
Theorem handleVulns_records_relevant (pkg : Osv.WorkItem) (vulns : list Osv.vuln)
    (st : Osv.store) (i : string) :
  is_Some (Osv.allVulns (Osv.handleVulns pkg vulns st) !! i) <->
  is_Some (Osv.allVulns st !! i) \/
  exists v, v ∈ vulns /\ Osv.id v = i /\
            Osv.isVulnerableAtOrBelow v (Osv.forkPoint pkg) = true.
Proof.
  rewrite handleVulns_allVulns, recordAll_keys. split.
  - intros [?|(op & Hop & Hi)]; [auto|]. right.
    apply list_elem_of_fmap in Hop as (v & -> & Hv).
    apply relevantTo_elem in Hv as [Hv Hrel]. by exists v.
  - intros [?|(v & Hv & Hi & Hrel)]; [auto|]. right.
    exists (v, pkg). split; [|done].
    apply list_elem_of_fmap. exists v. split; [done|]. by apply relevantTo_elem.
Qed.

(** X13: a record of [allVulns] is never removed during a run and only
    grows: its identifier, summary, details, severity, affected data and
    references stay as first recorded, the components reported so far stay
    at the front of [affectedComponents] in the same order, and no fixed
    version is lost. *)
Theorem records_only_grow (s s' : Osv.state) (tr : list Osv.label)
    (i : string) (r : Osv.VulnRecord) :
  Osv.exec s tr s' ->
  Osv.allVulns (Osv.shared s) !! i = Some r ->
  exists r',
    Osv.allVulns (Osv.shared s') !! i = Some r' /\
    Osv.rec_id r' = Osv.rec_id r /\
    Osv.rec_summary r' = Osv.rec_summary r /\
    Osv.rec_details r' = Osv.rec_details r /\
    Osv.rec_severity r' = Osv.rec_severity r /\
    Osv.rec_affected r' = Osv.rec_affected r /\
    Osv.rec_references r' = Osv.rec_references r /\
    (Osv.affectedComponents r `prefix_of` Osv.affectedComponents r') /\
    (forall x, x ∈ Osv.fixedVersions r -> x ∈ Osv.fixedVersions r').
Proof. apply exec_extends. Qed.

(** X14: at every moment of a run of [main], every record of [allVulns]
    is stored under its own identifier, lists its fixed versions without
    duplicates and without the empty string, and lists at least one
    component, without duplicates, all of them components of the packages
    read at the start. *)
Theorem records_well_formed (packages : list Osv.WorkItem) (n : nat)
    (tr : list Osv.label) (s : Osv.state) (i : string) (r : Osv.VulnRecord) :
  Osv.exec (Osv.start packages n) tr s ->
  Osv.allVulns (Osv.shared s) !! i = Some r ->
  Osv.rec_id r = i /\
  NoDup (Osv.fixedVersions r) /\
  ("" ∉ Osv.fixedVersions r) /\
  NoDup (Osv.affectedComponents r) /\
  Osv.affectedComponents r <> [] /\
  (forall c, c ∈ Osv.affectedComponents r ->
             exists pkg, pkg ∈ packages /\ Osv.component pkg = c).
Proof.
  intros Hex Hr.
  destruct (exec_runOk packages _ _ _ Hex (start_runOk packages n)) as [_ Hrec].
  destruct (Hrec i r Hr) as (H1 & H2 & H3 & H4 & H5 & H6).
  repeat (split; [done|]).
  intros c Hc. apply H6, list_elem_of_fmap in Hc as (pkg & -> & Hp). eauto.
Qed.


(** X16: the degenerate runs do nothing: without lanes no step is taken,
    whatever the queue holds; on an empty queue no item is taken, no
    request is sent and both maps stay empty. *)
Theorem degenerate_runs :
  (forall packages tr s, Osv.exec (Osv.start packages 0) tr s -> tr = []) /\
  (forall n tr s,
      Osv.exec (Osv.start [] n) tr s ->
      Osv.dequeued tr = [] /\ Osv.requests tr = [] /\
      Osv.shared s = {| Osv.allVulns := ∅; Osv.perPackageCounts := ∅ |}).
Proof.
  split; [apply exec_no_lanes|].
  intros n tr s Hex.
  pose proof (exec_queue _ _ _ Hex) as Hq. simpl in Hq.
  apply app_eq_nil in Hq as [Hd _].
  pose proof (exec_awaiting _ _ _ Hex) as Ha.
  rewrite start_awaiting, Hd in Ha. simpl in Ha.
  apply Permutation_nil_r, app_eq_nil in Ha as [Hf _].
  destruct (exec_no_finish _ _ _ Hex Hf) as [Hs Hr]. done.
Qed.

(** X17: a completed run with at least one lane has queried every package
    with its own component, and has sent between one and six requests per
    package. *)
Theorem completed_run_requests (packages : list Osv.WorkItem) (n : nat)
    (tr : list Osv.label) (s : Osv.state) :
  (1 <= n)%nat ->
  Osv.exec (Osv.start packages n) tr s -> Osv.completed s ->
  (forall pkg, pkg ∈ packages -> Osv.requestFor pkg ∈ Osv.requests tr) /\
  (length packages <= length (Osv.requests tr) <= 6 * length packages)%nat.
Proof.
  intros Hn Hex Hc.
  pose proof (exec_queue _ _ _ Hex) as Hq. simpl in Hq.
  rewrite (completed_queue packages n tr s Hn Hex Hc), app_nil_r in Hq.
  pose proof (exec_awaiting _ _ _ Hex) as Ha.
  rewrite (completed_awaiting s Hc), start_awaiting, app_nil_r, Hq in Ha.
  simpl in Ha. split.
  - intros pkg Hp. rewrite <- Ha in Hp.
    apply finished_label in Hp as (i & net & vulns & w & Hin).
    pose proof (exec_finish _ _ _ _ _ _ _ _ Hex Hin) as Hr.
    apply osvRequest_sent in Hr as [Hne Hall].
    unfold Osv.requests. apply list_elem_of_bind. eexists. split; [|exact Hin].
    simpl. destruct (Osv.sent w) as [|req reqs]; [done|].
    apply Forall_cons in Hall as [-> _]. apply list_elem_of_here.
  - pose proof (exec_requests_bounds _ _ _ Hex) as Hb.
    by rewrite (Permutation_length Ha) in Hb.
Qed.

Lemma completed_run_requests_witness :
  Osv.requestFor Design.pkgA ∈
    Osv.requests
      [Osv.Dequeue 0 Design.pkgA; Osv.Exit 1;
       Osv.Finish 0 Design.pkgA Osv.noVulns [] Design.oneRequest; Osv.Exit 0].
Proof.
  assert (Osv.osvRequest Osv.noVulns Design.pkgA = Some ([], Design.oneRequest)) as Hreq
    by reflexivity.
  refine (proj1 (completed_run_requests [Design.pkgA] Osv.CONCURRENCY _ _ _
                   (single_run Osv.noVulns [] Hreq) _) Design.pkgA _).
  - unfold Osv.CONCURRENCY. lia.
  - by repeat constructor.
  - apply list_elem_of_here.
Defined.

Lemma records_only_grow_witness :
  exists r',
    Osv.allVulns
      (Osv.handleVulns Design.pkgB [Design.fixedAt "V1" "6.0.0"]
         (Osv.shared Design.afterPkgA)) !! "V1" = Some r' /\
    (["pkg:gem/rails"] `prefix_of` Osv.affectedComponents r').
Proof.
  assert (Osv.osvRequest (Design.oneVuln (Design.fixedAt "V1" "6.0.0")) Design.pkgB =
          Some ([Design.fixedAt "V1" "6.0.0"],
                {| Osv.sent := [Osv.requestFor Design.pkgB]; Osv.slept := [] |})) as Hreq
    by reflexivity.
  destruct (records_only_grow Design.afterPkgA _ _ "V1" Design.recordV1
              (Osv.exec_cons _ _ _ _ _
                 (Osv.step_finish Design.afterPkgA 0 Design.pkgB _ _ _ eq_refl Hreq)
                 (Osv.exec_nil _))
              eq_refl)
    as (r' & Hr' & _ & _ & _ & _ & _ & _ & Hpre & _).
  exists r'. split; [exact Hr'|exact Hpre].
Defined.

Lemma records_well_formed_witness :
  Osv.rec_id Design.recordV1 = "V1" /\
  NoDup (Osv.fixedVersions Design.recordV1) /\
  ("" ∉ Osv.fixedVersions Design.recordV1).
Proof.
  assert (Osv.osvRequest (Design.oneVuln (Design.fixedAt "V1" "6.0.0")) Design.pkgA =
          Some ([Design.fixedAt "V1" "6.0.0"], Design.oneRequest)) as Hreq by reflexivity.
  destruct (records_well_formed [Design.pkgA] Osv.CONCURRENCY _ _ "V1" Design.recordV1
              (single_run _ _ Hreq) eq_refl)
    as (H1 & H2 & H3 & _).
  split; [exact H1|]. split; [exact H2|exact H3].
Defined.


(* ===================================================================== *)
(** ** More on the catalog scrape                                         *)
(* ===================================================================== *)

Section CatalogMore.

Import Catalog.

Variable compareSemver : string -> string -> option Z.
Variable fetchPage : nat -> option pageData.

Lemma pageOk_true k :
  pageOk fetchPage k = true ->
  exists d rs, fetchPage k = Some d /\ results d = Some rs /\ resultsOf fetchPage k = rs.
Proof.
  unfold pageOk, resultsOf. destruct (fetchPage k) as [d|]; [|done].
  destruct (results d) as [rs|] eqn:E; [|done]. intros _. exists d, rs. simpl.
  by rewrite E.
Qed.

Lemma processPage_writes d rs m :
  m !! None = None -> results d = Some rs ->
  processPage compareSemver d m = Some (writeAll (rs ≫= observedOfItem) m).
Proof.
  intros Hm Hr. unfold processPage. rewrite Hr. by apply processResults_writes.
Qed.

Lemma observed_cons rs pages :
  observed (rs :: pages) = ((rs ≫= observedOfItem) ++ observed pages)%list.
Proof. reflexivity. Qed.

(** The loop when all its pages are there. *)
Lemma fetchRest_all n page m log :
  m !! None = None ->
  (forall k, (page <= k < page + n)%nat -> pageOk fetchPage k = true) ->
  fetchRest compareSemver fetchPage n page m log =
  (Some (writeAll (observed (resultsOf fetchPage <$> seq page n)) m),
   (log ++ (seq page n ≫= (fun k : nat => [Slept 2000; Fetched k])))%list).
Proof.
  revert page m log. induction n as [|n IH]; intros page m log Hm Hok.
  - simpl. by rewrite app_nil_r.
  - destruct (pageOk_true page) as (d & rs & Hd & Hrs & Hres); [apply Hok; lia|].
    cbn [fetchRest]. rewrite Hd, (processPage_writes d rs m Hm Hrs).
    rewrite IH.
    + cbn [seq fmap list_fmap]. rewrite observed_cons, writeAll_app, Hres.
      f_equal. csimpl. by rewrite <- !app_assoc.
    + by apply writeAll_undefined.
    + intros k Hk. apply Hok. lia.
Qed.

(** The loop when the page [page + i] is the first one missing. *)
Lemma fetchRest_fail i n page m log :
  m !! None = None ->
  (i < n)%nat ->
  (forall k, (page <= k < page + i)%nat -> pageOk fetchPage k = true) ->
  pageOk fetchPage (page + i) = false ->
  fetchRest compareSemver fetchPage n page m log =
  (None, (log ++ (seq page (S i) ≫= (fun k : nat => [Slept 2000; Fetched k])))%list).
Proof.
  revert n page m log. induction i as [|i IH]; intros n page m log Hm Hi Hok Hbad.
  - destruct n as [|n]; [lia|]. rewrite Nat.add_0_r in Hbad.
    cbn [fetchRest]. csimpl. rewrite <- !app_assoc. simpl.
    unfold pageOk in Hbad. destruct (fetchPage page) as [d|]; [|done].
    unfold processPage. by destruct (results d).
  - destruct n as [|n]; [lia|].
    destruct (pageOk_true page) as (d & rs & Hd & Hrs & Hres); [apply Hok; lia|].
    cbn [fetchRest]. rewrite Hd, (processPage_writes d rs m Hm Hrs).
    rewrite (IH n (S page)).
    + f_equal. csimpl. by rewrite <- !app_assoc.
    + by apply writeAll_undefined.
    + lia.
    + intros k Hk. apply Hok. lia.
    + by replace (S page + i)%nat with (page + S i)%nat by lia.
Qed.

Lemma announced_loop first : Z.to_nat (totalOf first - 1) = (announced first - 1)%nat.
Proof. unfold announced. lia. Qed.

Lemma fetchAllPages_no_first :
  pageOk fetchPage 1 = false ->
  fetchAllPages compareSemver fetchPage = (None, schedule 1).
Proof.
  unfold pageOk, fetchAllPages, processPage.
  destruct (fetchPage 1%nat) as [d|]; [|done]. by destruct (results d).
Qed.

Lemma fetchAllPages_all first :
  fetchPage 1%nat = Some first ->
  (forall k, (1 <= k <= announced first)%nat -> pageOk fetchPage k = true) ->
  fetchAllPages compareSemver fetchPage =
  (Some (writeAll (observed (resultsOf fetchPage <$> seq 1 (announced first))) ∅),
   schedule (announced first)).
Proof.
  intros Hfirst Hok.
  destruct (pageOk_true 1) as (d & rs & Hd & Hrs & Hres);
    [apply Hok; unfold announced; lia|].
  rewrite Hfirst in Hd. injection Hd as <-.
  unfold fetchAllPages. rewrite Hfirst.
  rewrite (processPage_writes first rs ∅ (lookup_empty _) Hrs), announced_loop.
  rewrite fetchRest_all.
  - unfold schedule.
    destruct (announced first) as [|n] eqn:En; [unfold announced in En; lia|].
    replace (S n - 1)%nat with n by lia.
    cbn [seq fmap list_fmap]. by rewrite observed_cons, writeAll_app, Hres.
  - apply writeAll_undefined, lookup_empty.
  - intros k Hk. apply Hok. lia.
Qed.

Lemma fetchAllPages_missing first k :
  fetchPage 1%nat = Some first ->
  (1 <= k <= announced first)%nat ->
  (forall j, (1 <= j < k)%nat -> pageOk fetchPage j = true) ->
  pageOk fetchPage k = false ->
  fetchAllPages compareSemver fetchPage = (None, schedule k).
Proof.
  intros Hfirst Hk Hok Hbad.
  destruct (decide (k = 1%nat)) as [->|Hne]; [by apply fetchAllPages_no_first|].
  destruct (pageOk_true 1) as (d & rs & Hd & Hrs & Hres); [apply Hok; lia|].
  rewrite Hfirst in Hd. injection Hd as <-.
  unfold fetchAllPages. rewrite Hfirst.
  rewrite (processPage_writes first rs ∅ (lookup_empty _) Hrs), announced_loop.
  rewrite (fetchRest_fail (k - 2)).
  - unfold schedule. by replace (S (k - 2)) with (k - 1)%nat by lia.
  - apply writeAll_undefined, lookup_empty.
  - lia.
  - intros j Hj. apply Hok. lia.
  - by replace (2 + (k - 2))%nat with k by lia.
Qed.

End CatalogMore.

Section CatalogResult.

Import Catalog.

Lemma observedOfItem_elem it p :
  p ∈ observedOfItem it <->
  exists c v,
    component it = Some c /\ c <> "" /\ v ∈ versions it /\ p = (c, forkPoint (oss v)).
Proof.
  unfold observedOfItem. destruct (component it) as [c|].
  - destruct (JS.str_truthy c) eqn:E.
    + apply str_truthy_spec in E. rewrite list_elem_of_fmap. split.
      * intros (v & -> & Hv). by exists c, v.
      * intros (c' & v & [= <-] & _ & Hv & ->). by exists v.
    + split; [by intros ?%elem_of_nil|].
      intros (c' & v & [= <-] & Hne & _). apply str_truthy_spec in Hne. congruence.
  - split; [by intros ?%elem_of_nil|]. by intros (c' & v & ? & _).
Qed.

Lemma observed_elem pages p :
  p ∈ observed pages <->
  exists rs it c v,
    rs ∈ pages /\ it ∈ rs /\ component it = Some c /\ c <> "" /\
    v ∈ versions it /\ p = (c, forkPoint (oss v)).
Proof.
  unfold observed. rewrite list_elem_of_bind. split.
  - intros (rs & (it & Hp & Hit)%list_elem_of_bind & Hrs).
    apply observedOfItem_elem in Hp as (c & v & H). exists rs, it, c, v. tauto.
  - intros (rs & it & c & v & Hrs & Hit & H). exists rs. split; [|done].
    apply list_elem_of_bind. exists it. split; [|done].
    apply observedOfItem_elem. by exists c, v.
Qed.

Lemma forkPointsOf_elem c obs f : f ∈ forkPointsOf c obs <-> (c, f) ∈ obs.
Proof.
  unfold forkPointsOf. rewrite list_elem_of_fmap. split.
  - intros ([c' f'] & -> & [Hc Hin]%list_elem_of_filter). simpl in *. by subst.
  - intros H. exists (c, f). split; [done|]. by apply list_elem_of_filter.
Qed.

End CatalogResult.

(** X18: when the first page and every page up to the number it announces
    ([totalPages], or 1 when absent or zero) can be fetched and has results,
    [fetchAllPages] requests the pages 1, 2, ... in order, pausing 2000 ms
    before each but the first, and ends with a map that holds, for each
    component, the last fork point observed over all these pages. *)
Theorem fetchAllPages_success
    (compareSemver : string -> string -> option Z)
    (fetchPage : nat -> option Catalog.pageData) (first : Catalog.pageData) :
  fetchPage 1%nat = Some first ->
  (forall k, (1 <= k <= Catalog.announced first)%nat ->
             Catalog.pageOk fetchPage k = true) ->
  exists m,
    Catalog.fetchAllPages compareSemver fetchPage =
      (Some m, Catalog.schedule (Catalog.announced first)) /\
    forall c,
      m !! Some c =
      (fun fp => {| Catalog.entry_component := c; Catalog.entry_forkPoint := fp |}) <$>
        last (Catalog.forkPointsOf c
                (Catalog.observed
                   (Catalog.resultsOf fetchPage <$> seq 1 (Catalog.announced first)))).
Proof.
  intros Hfirst Hok. eexists. split; [by apply fetchAllPages_all|].
  intros c. rewrite writeAll_lookup, lookup_empty. by destruct (last _).
Qed.

Lemma fetchAllPages_success_witness :
  exists m,
    Catalog.fetchAllPages (fun _ _ => None) Design.twoPages =
      (Some m,
       [Catalog.Fetched 1; Catalog.Slept 2000; Catalog.Fetched 2]) /\
    m !! Some "pkg:composer/symfony/console" =
      Some {| Catalog.entry_component := "pkg:composer/symfony/console";
              Catalog.entry_forkPoint := "5.3.0" |}.
Proof.
  destruct (fetchAllPages_success (fun _ _ => None) Design.twoPages _ eq_refl)
    as (m & Hm & Hlook).
  - intros k Hk. change (Catalog.announced _) with 2%nat in Hk.
    destruct k as [|[|[|k]]]; [lia|reflexivity|reflexivity|lia].
  - exists m. split; [exact Hm|]. rewrite Hlook. reflexivity.
Defined.

(** X19: when the first page cannot be fetched or has no results, or when
    a page [k] up to the announced number is the first such page,
    [fetchAllPages] throws after having requested the pages up to that one
    and no page after it. *)
Theorem fetchAllPages_failure
    (compareSemver : string -> string -> option Z)
    (fetchPage : nat -> option Catalog.pageData) :
  (Catalog.pageOk fetchPage 1 = false ->
   Catalog.fetchAllPages compareSemver fetchPage = (None, Catalog.schedule 1)) /\
  (forall first k,
      fetchPage 1%nat = Some first ->
      (1 <= k <= Catalog.announced first)%nat ->
      (forall j, (1 <= j < k)%nat -> Catalog.pageOk fetchPage j = true) ->
      Catalog.pageOk fetchPage k = false ->
      Catalog.fetchAllPages compareSemver fetchPage = (None, Catalog.schedule k)).
Proof.
  split; [apply fetchAllPages_no_first|].
  intros first k. apply fetchAllPages_missing.
Qed.

Lemma fetchAllPages_failure_witness :
  Catalog.fetchAllPages (fun _ _ => None) Design.onePageOfTwo =
  (None, [Catalog.Fetched 1; Catalog.Slept 2000; Catalog.Fetched 2]).
Proof.
  refine (proj2 (fetchAllPages_failure (fun _ _ => None) Design.onePageOfTwo)
            _ 2%nat eq_refl _ _ _).
  - change (Catalog.announced _) with 2%nat. lia.
  - intros j Hj. assert (j = 1%nat) as -> by lia. reflexivity.
  - reflexivity.
Defined.

(** X20: whatever the catalog answers, [fetchAllPages] requests the pages
    1, 2, ..., j in this order for some [j], pausing 2000 ms before each
    but the first, never a page beyond the number the first page announced
    (what later pages announce is ignored); and it returns a result only
    when [j] is that number and all these pages were there. *)
Theorem fetchAllPages_schedule
    (compareSemver : string -> string -> option Z)
    (fetchPage : nat -> option Catalog.pageData) :
  exists j,
    (1 <= j)%nat /\
    snd (Catalog.fetchAllPages compareSemver fetchPage) = Catalog.schedule j /\
    (forall first, fetchPage 1%nat = Some first -> (j <= Catalog.announced first)%nat) /\
    (is_Some (fst (Catalog.fetchAllPages compareSemver fetchPage)) ->
     exists first,
       fetchPage 1%nat = Some first /\ j = Catalog.announced first /\
       forall k, (1 <= k <= j)%nat -> Catalog.pageOk fetchPage k = true).
Proof.
  destruct (fetchPage 1%nat) as [first|] eqn:Hfirst.
  - assert (1 <= Catalog.announced first)%nat as Hpos by (unfold Catalog.announced; lia).
    destruct (first_stop (fun k => negb (Catalog.pageOk fetchPage (S k)))
                (Catalog.announced first - 1))
      as [(k & Hk & Hbad & Hok)|Hall].
    + apply negb_true_iff in Hbad.
      assert (forall j, (1 <= j < S k)%nat -> Catalog.pageOk fetchPage j = true) as Hok'.
      { intros j Hj. specialize (Hok (j - 1)%nat ltac:(lia)).
        apply negb_false_iff in Hok. by replace (S (j - 1)) with j in Hok by lia. }
      rewrite (fetchAllPages_missing compareSemver fetchPage first (S k) Hfirst
                 ltac:(lia) Hok' Hbad).
      exists (S k). split; [lia|]. split; [done|]. split.
      * intros first' [= <-]. lia.
      * simpl. by intros [? ?].
    + assert (forall k, (1 <= k <= Catalog.announced first)%nat ->
                        Catalog.pageOk fetchPage k = true) as Hok.
      { intros k Hk. specialize (Hall (k - 1)%nat ltac:(lia)).
        apply negb_false_iff in Hall. by replace (S (k - 1)) with k in Hall by lia. }
      rewrite (fetchAllPages_all compareSemver fetchPage first Hfirst Hok).
      exists (Catalog.announced first). split; [done|]. split; [done|]. split.
      * by intros first' [= <-].
      * intros _. by exists first.
  - rewrite fetchAllPages_no_first by (unfold Catalog.pageOk; by rewrite Hfirst).
    exists 1%nat. split; [done|]. split; [done|]. split; [done|].
    simpl. by intros [? ?].
Qed.

(** X21: the map [processResults] builds from the pages holds an entry
    exactly for the components of the items that have a non-empty identifier
    and at least one version; the entry carries that identifier and a fork
    point of one of the component's versions, and no entry sits under
    [undefined]. *)
Theorem processPages_entries
    (compareSemver : string -> string -> option Z) (pages : list (list Catalog.item)) :
  exists m,
    Catalog.processPages compareSemver pages = Some m /\
    m !! None = None /\
    (forall c e,
        m !! Some c = Some e ->
        Catalog.entry_component e = c /\
        exists rs it v,
          rs ∈ pages /\ it ∈ rs /\ Catalog.component it = Some c /\ c <> "" /\
          v ∈ Catalog.versions it /\
          Catalog.entry_forkPoint e = Catalog.forkPoint (Catalog.oss v)) /\
    (forall rs it c,
        rs ∈ pages -> it ∈ rs -> Catalog.component it = Some c -> c <> "" ->
        Catalog.versions it <> [] -> is_Some (m !! Some c)).
Proof.
  exists (Catalog.writeAll (Catalog.observed pages) ∅).
  split; [apply processPages_writes|].
  split; [apply writeAll_undefined, lookup_empty|]. split.
  - intros c e. rewrite writeAll_lookup, lookup_empty.
    destruct (last _) as [fp|] eqn:E; [|done]. intros [= <-]. split; [done|].
    apply last_Some_elem_of, forkPointsOf_elem, observed_elem in E
      as (rs & it & c' & v & Hrs & Hit & Hc & Hne & Hv & [= <- ->]).
    by exists rs, it, v.
  - intros rs it c Hrs Hit Hc Hne Hv. rewrite writeAll_lookup, lookup_empty.
    destruct (Catalog.versions it) as [|v vs] eqn:Ev; [done|].
    assert (is_Some (last (Catalog.forkPointsOf c (Catalog.observed pages)))) as [fp ->].
    { apply last_is_Some. intros Hnil.
      assert (Catalog.forkPoint (Catalog.oss v) ∈
              Catalog.forkPointsOf c (Catalog.observed pages)) as Hin.
      { apply forkPointsOf_elem, observed_elem. exists rs, it, c, v.
        rewrite Ev. repeat split; try done. apply list_elem_of_here. }
      rewrite Hnil in Hin. by apply elem_of_nil in Hin. }
    eauto.
Qed.

(* ===================================================================== *)
(** ** The package-URL parser                                             *)
(* ===================================================================== *)

Section Purl.

Import Osv Design.



Lemma span_spec ok s p r :
  span ok s = (p, r) ->
  s = (p ++ r)%string /\ all_chars ok p = true /\
  (r = "" \/ exists c r', r = String c r' /\ ok c = false).
Proof.
  revert p r. induction s as [|c s IH]; intros p r; simpl.
  - intros [= <- <-]. auto.
  - destruct (ok c) eqn:E.
    + destruct (span ok s) as [p' r'] eqn:Es. intros [= <- <-].
      destruct (IH p' r' eq_refl) as (-> & Hp & Hr). simpl. rewrite E, Hp. auto.
    + intros [= <- <-]. simpl. split; [done|]. split; [done|]. right. eauto.
Qed.

Lemma substring_whole s : String.substring 0 (String.length s) s = s.
Proof. induction s as [|c s IH]; simpl; [done|]. by rewrite IH. Qed.


Lemma strip_prefix_pkg_inv p s :
  strip_prefix "pkg:" p = Some s -> p = ("pkg:" ++ s)%string.
Proof.
  unfold strip_prefix.
  destruct (String.prefix "pkg:" p) eqn:E; [|done]. intros [= <-].
  apply prefix_correct in E. simpl in E.
  destruct p as [|c1 [|c2 [|c3 [|c4 p]]]]; simpl in E; try done.
  injection E as -> -> -> ->. simpl. rewrite Nat.sub_0_r. by rewrite substring_whole.
Qed.

(** The three [if]s of [parsePurl] are the lookup of the design. *)
Lemma registry_chain m1 :
  (let registry1 := if String.eqb m1 "gem" then "RubyGems" else m1 in
   let registry2 := if String.eqb registry1 "maven" then "Maven" else registry1 in
   if String.eqb registry2 "composer" then "Packagist" else registry2) =
  normalizeRegistry m1.
Proof.
  unfold normalizeRegistry. cbv zeta.
  destruct (String.eqb_spec m1 "gem") as [->|_]; [done|].
  destruct (String.eqb_spec m1 "maven") as [->|_]; done.
Qed.

Lemma normalizeRegistry_canonical reg :
  normalizeRegistry reg <> "gem" /\ normalizeRegistry reg <> "maven" /\
  normalizeRegistry reg <> "composer".
Proof.
  unfold normalizeRegistry.
  destruct (String.eqb_spec reg "gem") as [->|?]; [done|].
  destruct (String.eqb_spec reg "maven") as [->|?]; [done|].
  destruct (String.eqb_spec reg "composer") as [->|?]; done.
Qed.


Lemma not_eqb_false c d : negb (Ascii.eqb c d) = false -> c = d.
Proof. intros H. apply negb_false_iff in H. by apply Ascii.eqb_eq. Qed.

Lemma parsePurl_inv p r :
  parsePurl p = Some r ->
  exists reg tail,
    p = ("pkg:" ++ reg ++ "/" ++ purl_component r ++ tail)%string /\
    registry r = normalizeRegistry reg /\
    reg <> "" /\ all_chars (fun c => negb (Ascii.eqb c "/")) reg = true /\
    purl_component r <> "" /\
    all_chars (fun c => negb (Ascii.eqb c "@")) (purl_component r) = true /\
    match purl_version r with
    | Some v =>
        v <> "" /\ all_chars (fun c => negb (is_line_end c)) v = true /\
        exists rest, tail = ("@" ++ v ++ rest)%string
    | None => tail = "" \/ exists rest, tail = String "@" rest
    end.
Proof.
  unfold parsePurl.
  destruct (strip_prefix "pkg:" p) as [s1|] eqn:Ep; [|done].
  apply strip_prefix_pkg_inv in Ep as ->.
  destruct (span _ s1) as [m1 s2] eqn:E1.
  apply span_spec in E1 as (-> & Hm1 & Hs2).
  destruct m1 as [|r0 m1]; [done|]. destruct s2 as [|c2 s3]; [done|].
  destruct Hs2 as [?|(c & r' & [= <- <-] & ->%not_eqb_false)]; [done|].
  destruct (span _ s3) as [m2 s4] eqn:E2.
  apply span_spec in E2 as (-> & Hm2 & Hs4).
  destruct m2 as [|c0 m2]; [done|].
  rewrite registry_chain. intros [= <-]. simpl purl_component. simpl purl_version.
  simpl registry.
  exists (String r0 m1), s4. split; [reflexivity|].
  split; [done|]. split; [done|]. split; [done|]. split; [done|]. split; [done|].
  destruct s4 as [|c4 s5]; [by left|].
  destruct Hs4 as [?|(c & r' & [= <- <-] & ->%not_eqb_false)]; [done|].
  destruct (span _ s5) as [ver rest] eqn:E3.
  apply span_spec in E3 as (-> & Hver & _).
  destruct ver as [|v0 ver]; simpl.
  - right. by eexists.
  - split; [done|]. split; [done|]. by exists rest.
Qed.

End Purl.



(** X23: whatever [parsePurl] accepts has the form
    [pkg:<registry>/<component><tail>] with a non-empty registry without
    [/] and a non-empty component without [@]; the registry returned is the
    canonical name, never [gem], [maven] or [composer]; a version returned is
    non-empty, free of line ends and follows an [@] right after the
    component; without a version the tail is empty or starts with [@]. *)
Theorem parsePurl_accepts_only_purls (p : string) (r : Osv.Purl) :
  Osv.parsePurl p = Some r ->
  exists reg tail,
    p = ("pkg:" ++ reg ++ "/" ++ Osv.purl_component r ++ tail)%string /\
    Osv.registry r = Design.normalizeRegistry reg /\
    Osv.registry r <> "gem" /\ Osv.registry r <> "maven" /\
    Osv.registry r <> "composer" /\
    reg <> "" /\ Design.all_chars (fun c => negb (Ascii.eqb c "/")) reg = true /\
    Osv.purl_component r <> "" /\
    Design.all_chars (fun c => negb (Ascii.eqb c "@")) (Osv.purl_component r) = true /\
    match Osv.purl_version r with
    | Some v =>
        v <> "" /\ Design.all_chars (fun c => negb (Osv.is_line_end c)) v = true /\
        exists rest, tail = ("@" ++ v ++ rest)%string
    | None => tail = "" \/ exists rest, tail = String "@" rest
    end.
Proof.
  intros (reg & tail & Hp & Hr & H)%parsePurl_inv.
  exists reg, tail. split; [done|]. split; [done|].
  rewrite Hr. pose proof (normalizeRegistry_canonical reg) as (? & ? & ?).
  by repeat (split; [done|]).
Qed.

Lemma parsePurl_accepts_only_purls_witness :
  exists reg tail,
    "pkg:gem/rails@" = ("pkg:" ++ reg ++ "/" ++ "rails" ++ tail)%string /\
    "RubyGems" = Design.normalizeRegistry reg /\
    (tail = "" \/ exists rest, tail = String "@" rest).
Proof.
  destruct (parsePurl_accepts_only_purls "pkg:gem/rails@"
              {| Osv.registry := "RubyGems"; Osv.purl_component := "rails";
                 Osv.purl_version := None |} eq_refl)
    as (reg & tail & Hp & Hr & _ & _ & _ & _ & _ & _ & _ & Hv).
  exists reg, tail. split; [exact Hp|]. split; [exact Hr|exact Hv].
Defined.
